(** * Nearest-grid-point resolver of [dmidc.harmonie.utils]

    A shallow embedding of [_wrap_lon], [cache_to_pickle] and
    [sel_nearest_to_latlon_pt] from [src/dmidc/harmonie/utils.py].

    The loop of [_wrap_lon] is embedded twice.  [wrap_loop_b64] runs it on
    binary64 values (primitive floats), as Python runs it on [float]s, with
    rounding, NaN and infinities.  [wrap_loop] runs it on exact rationals
    ([Q]); the two agree on every run in which no addition or subtraction
    of 360 rounds ([exact_run], [wrap_loop_b64_exact]).  The dataset, the
    index and the caches use the exact numbers.  Loops run with explicit
    fuel and an out-of-fuel outcome that is distinct from every Python
    exception. *)

From Stdlib Require Import QArith Qround Qminmax Lqa Lia ZArith List.
From Stdlib Require Import PrimFloat FloatOps SpecFloat.
From stdpp Require Import gmap strings.

Local Open Scope Q_scope.

(** ** Exceptions and outcomes *)

(** The texts of the [raise] statements, with the values the f-strings
    interpolate. *)
Inductive message : Type :=
| MsgNoSuiteName                              (* utils.py:90 *)
| MsgPtNotDict                                (* utils.py:93 *)
| MsgCannotPlace (lon : Q) (lon_bounds : Q * Q)  (* utils.py:48-51 *)
| MsgLonOutside (lon : Q) (lon_bounds : Q * Q)   (* utils.py:122-124 *)
| MsgLatOutside (lat : Q) (lat_bounds : Q * Q)   (* utils.py:128-130 *)
| MsgEmptyData.                               (* cKDTree on zero points *)

(** The Python exception classes that the modelled code can raise. *)
Inductive exn : Type :=
| ValueError (m : message)
| TypeError (m : message)
| KeyError (key : string)
| UnboundLocalError (name : string)
| IndexError.

Inductive outcome (A : Type) : Type :=
| Ret (a : A)
| Raise (e : exn)
| OutOfFuel.
Arguments Ret {A} a.
Arguments Raise {A} e.
Arguments OutOfFuel {A}.

(** ** Comparisons on rationals *)

Definition Qltb (x y : Q) : bool := negb (Qle_bool y x).

(** ** Longitude wrapping: [_wrap_lon] (utils.py:36-64) on exact numbers *)

(** One unit of fuel pays for one evaluation of the [while] condition.
    [lon0] is the value the caller passed; it only appears in the text of the
    exception, which is built before the loop. *)
Fixpoint wrap_loop (fuel : nat) (lon0 : Q) (lon_bounds : Q * Q)
    (lon applied_rotation : Q) : outcome (Q * Q) :=
  match fuel with
  | O => OutOfFuel
  | S fuel' =>
      if Qltb lon (fst lon_bounds) || Qltb (snd lon_bounds) lon then
        if Qltb lon (fst lon_bounds) then
          if Qltb applied_rotation 0
          then Raise (ValueError (MsgCannotPlace lon0 lon_bounds))
          else wrap_loop fuel' lon0 lon_bounds (lon + 360) (applied_rotation + 360)
        else if Qltb (snd lon_bounds) lon then
          if Qltb 0 applied_rotation
          then Raise (ValueError (MsgCannotPlace lon0 lon_bounds))
          else wrap_loop fuel' lon0 lon_bounds (lon - 360) (applied_rotation - 360)
        else wrap_loop fuel' lon0 lon_bounds lon applied_rotation
      else Ret (lon, applied_rotation)
  end.

Definition _wrap_lon (fuel : nat) (lon : Q) (lon_bounds : Q * Q)
  : outcome (Q * Q) :=
  wrap_loop fuel lon lon_bounds lon 0.



(** ** Datasets *)

(** [ds.lon.dims]: the two spatial dimensions, in storage order. *)
Inductive dim_order : Type :=
| DimsXY   (* ('x', 'y'): x is the first axis, y varies fastest *)
| DimsYX.  (* ('y', 'x'): y is the first axis, x varies fastest *)

(** A gridded dataset.  [ds_shape] is [ds.lon.shape]; the value lists are
    the C-order buffers that [.values.flatten()] returns.  Data variables are
    two-dimensional here and share the dimensions of the coordinates. *)
Record Dataset : Type := {
  ds_attrs : gmap string string;
  ds_dims : dim_order;
  ds_shape : nat * nat;
  ds_lon : list Q;
  ds_lat : list Q;
  ds_vars : list (string * list Q)
}.

(** The result of [ds.isel(x=i, y=j)]: both spatial dimensions collapsed. *)
Record DatasetPoint : Type := {
  pt_lon : Q;
  pt_lat : Q;
  pt_vars : list (string * Q)
}.

Definition wf_dataset (ds : Dataset) : Prop :=
  let n := (fst (ds_shape ds) * snd (ds_shape ds))%nat in
  length (ds_lon ds) = n /\ length (ds_lat ds) = n /\
  Forall (fun v => length (snd v) = n) (ds_vars ds).

(** Python values a caller can pass as [pt]. *)
Inductive pyobj : Type :=
| PyNone
| PyNumber (q : Q)
| PyTuple (items : list Q)
| PyDict (d : gmap string Q).

(** utils.py:92-95: the [isinstance] test and the two subscripts. *)
Definition pt_lon_lat (pt : pyobj) : outcome (Q * Q) :=
  match pt with
  | PyDict d =>
      match d !! "lon"%string with
      | None => Raise (KeyError "lon")
      | Some lon =>
          match d !! "lat"%string with
          | None => Raise (KeyError "lat")
          | Some lat => Ret (lon, lat)
          end
      end
  | _ => Raise (TypeError MsgPtNotDict)
  end.

(** Position in the C-order buffer of the element that [isel(x=i, y=j)]
    selects; [None] when an index is out of range for its dimension. *)
Definition flat_position (d : dim_order) (shape : nat * nat) (i j : nat)
  : option nat :=
  let '(n0, n1) := shape in
  match d with
  | DimsXY => if (i <? n0)%nat && (j <? n1)%nat then Some (i * n1 + j)%nat else None
  | DimsYX => if (j <? n0)%nat && (i <? n1)%nat then Some (j * n1 + i)%nat else None
  end.

Fixpoint isel_vars (vars : list (string * list Q)) (p : nat)
  : option (list (string * Q)) :=
  match vars with
  | [] => Some []
  | (name, vals) :: rest =>
      match vals !! p, isel_vars rest p with
      | Some v, Some out => Some ((name, v) :: out)
      | _, _ => None
      end
  end.

(** [ds.isel(x=i, y=j)]; an index past the end of its dimension is an
    [IndexError]. *)
Definition isel (ds : Dataset) (i j : nat) : outcome DatasetPoint :=
  match flat_position (ds_dims ds) (ds_shape ds) i j with
  | None => Raise IndexError
  | Some p =>
      match ds_lon ds !! p, ds_lat ds !! p, isel_vars (ds_vars ds) p with
      | Some lo, Some la, Some vs =>
          Ret {| pt_lon := lo; pt_lat := la; pt_vars := vs |}
      | _, _, _ => Raise IndexError
      end
  end.

(** ** The spatial index *)

Definition dist2 (p q : Q * Q) : Q :=
  (fst p - fst q) * (fst p - fst q) + (snd p - snd q) * (snd p - snd q).

(** Scan for the closest point; [i] is the index of the head of [pts], and
    a later point replaces the best one only when strictly closer. *)
Fixpoint nearest_from (q : Q * Q) (pts : list (Q * Q)) (i best : nat)
    (best_d : Q) : nat :=
  match pts with
  | [] => best
  | p :: rest =>
      if Qltb (dist2 p q) best_d
      then nearest_from q rest (S i) i (dist2 p q)
      else nearest_from q rest (S i) best best_d
  end.

(** [tree.query(q)[1]]: index of a nearest point of the indexed set, in
    Euclidean distance on (lon, lat).  Among equally close points the scan
    keeps the first; scipy leaves that choice open and no property below
    depends on it. *)
Definition kd_query (pts : list (Q * Q)) (q : Q * Q) : nat :=
  match pts with
  | [] => O
  | p :: rest => nearest_from q rest 1 0 (dist2 p q)
  end.

Record LookupInfo : Type := {
  tree : list (Q * Q);
  bounds_lat : Q * Q;
  bounds_lon : Q * Q
}.

(** The body of [build_tree] (utils.py:100-106).  [zip] stops at the shorter
    buffer; on an empty point set [cKDTree] raises a [ValueError], before
    the bounds are computed and before anything is cached. *)
Definition build_tree_body (ds : Dataset) : outcome LookupInfo :=
  match ds_lon ds, ds_lat ds with
  | x :: xs, y :: ys =>
      Ret {| tree := zip (ds_lon ds) (ds_lat ds);
             bounds_lat := (fold_left Qmin ys y, fold_left Qmax ys y);
             bounds_lon := (fold_left Qmin xs x, fold_left Qmax xs x) |}
  | _, _ => Raise (ValueError MsgEmptyData)
  end.

(** ** Process state and the two caches *)

Inductive cache_event : Type :=
| EvMemProbe (identifier : string)      (* identifier in LOOKUP_INFO *)
| EvMemRead (identifier : string)       (* LOOKUP_INFO[identifier] *)
| EvMemStore (identifier : string)      (* LOOKUP_INFO[identifier] = ... *)
| EvPickleProbe (identifier : string)   (* fp_pickle.exists() *)
| EvPickleLoad (identifier : string)    (* pickle.load *)
| EvPickleDump (identifier : string)    (* pickle.dump *)
| EvBuild (identifier : string).        (* the body of build_tree runs *)

(** [LOOKUP_INFO] is the module-level dict, [pickles] the files under
    [FP_LOOKUP_INFO_ROOT] keyed by identifier, [trace] the accesses so far
    (most recent last). *)
Record world : Type := {
  LOOKUP_INFO : gmap string LookupInfo;
  pickles : gmap string LookupInfo;
  trace : list cache_event
}.

Definition empty_world : world :=
  {| LOOKUP_INFO := ∅; pickles := ∅; trace := [] |}.

(** Every in-memory entry has a pickle: true of a fresh process and kept by
    every call. *)
Definition wf_world (w : world) : Prop :=
  forall identifier : string,
    is_Some (LOOKUP_INFO w !! identifier) -> is_Some (pickles w !! identifier).

Definition M (A : Type) : Type := world -> outcome A * world.

Definition ret {A} (a : A) : M A := fun w => (Ret a, w).
Definition raise {A} (e : exn) : M A := fun w => (Raise e, w).
Definition lift {A} (o : outcome A) : M A := fun w => (o, w).
Definition bind {A B} (m : M A) (k : A -> M B) : M B :=
  fun w =>
    match m w with
    | (Ret a, w') => k a w'
    | (Raise e, w') => (Raise e, w')
    | (OutOfFuel, w') => (OutOfFuel, w')
    end.

Notation "x <- m ;; k" := (bind m (fun x => k))
  (at level 100, m at next level, right associativity).
Notation "m ;;; k" := (bind m (fun _ => k))
  (at level 100, right associativity).

Definition log (ev : cache_event) : M unit :=
  fun w => (Ret tt, {| LOOKUP_INFO := LOOKUP_INFO w; pickles := pickles w;
                       trace := trace w ++ [ev] |}).

Definition mem_get (identifier : string) : M (option LookupInfo) :=
  log (EvMemProbe identifier) ;;;
  fun w =>
    match LOOKUP_INFO w !! identifier with
    | Some info => (log (EvMemRead identifier) ;;; ret (Some info)) w
    | None => (Ret None, w)
    end.

Definition mem_store (identifier : string) (info : LookupInfo) : M unit :=
  log (EvMemStore identifier) ;;;
  fun w => (Ret tt, {| LOOKUP_INFO := <[identifier := info]> (LOOKUP_INFO w);
                       pickles := pickles w; trace := trace w |}).

Definition pickle_get (identifier : string) : M (option LookupInfo) :=
  log (EvPickleProbe identifier) ;;;
  fun w =>
    match pickles w !! identifier with
    | Some info => (log (EvPickleLoad identifier) ;;; ret (Some info)) w
    | None => (Ret None, w)
    end.

Definition pickle_dump (identifier : string) (info : LookupInfo) : M unit :=
  log (EvPickleDump identifier) ;;;
  fun w => (Ret tt, {| LOOKUP_INFO := LOOKUP_INFO w;
                       pickles := <[identifier := info]> (pickles w);
                       trace := trace w |}).

(** utils.py:11-33: the wrapper that the decorator returns. *)
Definition cache_to_pickle (identifier : string) (func : M LookupInfo)
  : M LookupInfo :=
  cached <- pickle_get identifier ;;
  match cached with
  | Some info => ret info
  | None =>
      result <- func ;;
      pickle_dump identifier result ;;;
      ret result
  end.

(** utils.py:97-106. *)
Definition build_tree (ds : Dataset) (identifier : string) : M LookupInfo :=
  cache_to_pickle identifier
    (log (EvBuild identifier) ;;; lift (build_tree_body ds)).

(** utils.py:108-112. *)
Definition get_lookup_info (ds : Dataset) (identifier : string)
  : M LookupInfo :=
  cached <- mem_get identifier ;;
  match cached with
  | Some lookup_info => ret lookup_info
  | None =>
      lookup_info <- build_tree ds identifier ;;
      mem_store identifier lookup_info ;;;
      ret lookup_info
  end.

Definition outside (v : Q) (bounds : Q * Q) : bool :=
  Qltb v (fst bounds) || Qltb (snd bounds) v.

(** utils.py:114-142, once [lookup_info] is bound.  The locals
    [lon_wrapped] and [applied_lon_offset] are assigned on the [wrap_lon]
    branch only, so they are carried as an option. *)
Definition resolve (fuel : nat) (ds : Dataset) (lon lat : Q)
    (wrap_lon : bool) (lookup_info : LookupInfo) : outcome DatasetPoint :=
  let lookup_tree := tree lookup_info in
  match
    (if wrap_lon then
       match _wrap_lon fuel lon (bounds_lon lookup_info) with
       | Ret r => Ret (Some r)
       | Raise e => Raise e
       | OutOfFuel => OutOfFuel
       end
     else if outside lon (bounds_lon lookup_info)
       then Raise (ValueError (MsgLonOutside lon (bounds_lon lookup_info)))
       else Ret None)
  with
  | Raise e => Raise e
  | OutOfFuel => OutOfFuel
  | Ret wrapped =>
      if outside lat (bounds_lat lookup_info)
      then Raise (ValueError (MsgLatOutside lat (bounds_lat lookup_info)))
      else
        match wrapped with
        | None => Raise (UnboundLocalError "lon_wrapped")
        | Some (lon_wrapped, applied_lon_offset) =>
            let idx_nearest := kd_query lookup_tree (lon_wrapped, lat) in
            let '(nx, ny) := ds_shape ds in
            let i := (idx_nearest mod ny)%nat in
            let j := (idx_nearest / ny)%nat in
            match isel ds i j with
            | Ret ds_point =>
                if wrap_lon then
                  Ret {| pt_lon := pt_lon ds_point - applied_lon_offset;
                         pt_lat := pt_lat ds_point;
                         pt_vars := pt_vars ds_point |}
                else Ret ds_point
            | Raise e => Raise e
            | OutOfFuel => OutOfFuel
            end
        end
  end.

(** utils.py:67-142. *)
Definition sel_nearest_to_latlon_pt (fuel : nat) (ds : Dataset) (pt : pyobj)
    (wrap_lon : bool) : M DatasetPoint :=
  match ds_attrs ds !! "suite_name"%string with
  | None => raise (ValueError MsgNoSuiteName)
  | Some identifier =>
      lon_lat <- lift (pt_lon_lat pt) ;;
      lookup_info <- get_lookup_info ds identifier ;;
      lift (resolve fuel ds (fst lon_lat) (snd lon_lat) wrap_lon lookup_info)
  end.

(** [calls w w']: the process went from [w] to [w'] by zero or more calls
    of [sel_nearest_to_latlon_pt], on any datasets and query points. *)
Inductive calls : world -> world -> Prop :=
| calls_refl (w : world) : calls w w
| calls_step (w w' : world) (fuel : nat) (ds : Dataset) (pt : pyobj)
    (wrap_lon : bool) :
    calls w w' ->
    calls w (snd (sel_nearest_to_latlon_pt fuel ds pt wrap_lon w')).

(** The exceptions the specification files under its out-of-bounds error:
    the three [ValueError]s that name a value and the bounds it misses. *)
Definition is_out_of_bounds (e : exn) : Prop :=
  match e with
  | ValueError (MsgCannotPlace _ _)
  | ValueError (MsgLonOutside _ _)
  | ValueError (MsgLatOutside _ _) => True
  | _ => False
  end.

(** The exceptions of the argument check at utils.py:92-95. *)
Definition is_pt_error (e : exn) : Prop :=
  match e with
  | TypeError _ | KeyError _ => True
  | _ => False
  end.

(** ** Example data *)

Definition attrs_dini : gmap string string :=
  {[ "suite_name"%string := "dini"%string ]}.

(** A 1 x 5 strip along the equator, longitudes -10 .. 10. *)
Definition grid_strip : Dataset :=
  {| ds_attrs := attrs_dini; ds_dims := DimsYX; ds_shape := (1%nat, 5%nat);
     ds_lon := [-10; -5; 0; 5; 10]; ds_lat := [0; 0; 0; 0; 0];
     ds_vars := [("t2m"%string, [280; 281; 282; 283; 284])] |}.

(** The same buffers of a 2 x 3 grid under the two storage orders. *)
Definition grid_yx : Dataset :=
  {| ds_attrs := attrs_dini; ds_dims := DimsYX; ds_shape := (2%nat, 3%nat);
     ds_lon := [0; 1; 2; 10; 11; 12]; ds_lat := [50; 51; 52; 60; 61; 62];
     ds_vars := [("t2m"%string, [1; 2; 3; 4; 5; 6])] |}.

Definition grid_xy : Dataset :=
  {| ds_attrs := attrs_dini; ds_dims := DimsXY; ds_shape := (2%nat, 3%nat);
     ds_lon := [0; 1; 2; 10; 11; 12]; ds_lat := [50; 51; 52; 60; 61; 62];
     ds_vars := [("t2m"%string, [1; 2; 3; 4; 5; 6])] |}.

(** A grid with the identifier of [grid_yx] and other coordinates. *)
Definition grid_moved : Dataset :=
  {| ds_attrs := attrs_dini; ds_dims := DimsYX; ds_shape := (2%nat, 3%nat);
     ds_lon := [12; 11; 10; 2; 1; 0]; ds_lat := [62; 61; 60; 52; 51; 50];
     ds_vars := [("t2m"%string, [6; 5; 4; 3; 2; 1])] |}.

(** A dataset whose attributes carry no [suite_name]. *)
Definition grid_anonymous : Dataset :=
  {| ds_attrs := ∅; ds_dims := DimsYX; ds_shape := (1%nat, 5%nat);
     ds_lon := [-10; -5; 0; 5; 10]; ds_lat := [0; 0; 0; 0; 0];
     ds_vars := [] |}.

Definition pt_of (lon lat : Q) : pyobj :=
  PyDict {[ "lon"%string := lon; "lat"%string := lat ]}.

(** ** Longitude wrapping on binary64 *)

(** What [_wrap_lon] does with binary64 arguments: it returns the pair, it
    raises its [ValueError], or the fuel of the model runs out. *)
Inductive wrap_result : Type :=
| Wrapped (lon applied_rotation : float)
| WrapError
| WrapOutOfFuel.

(** utils.py:52-64 on [float]s: [<], [>], [+= 360] and [-= 360] are the
    binary64 operations. *)
Fixpoint wrap_loop_b64 (fuel : nat) (lon_bounds : float * float)
    (lon applied_rotation : float) : wrap_result :=
  match fuel with
  | O => WrapOutOfFuel
  | S fuel' =>
      if PrimFloat.ltb lon (fst lon_bounds)
         || PrimFloat.ltb (snd lon_bounds) lon then
        if PrimFloat.ltb lon (fst lon_bounds) then
          if PrimFloat.ltb applied_rotation 0%float
          then WrapError
          else wrap_loop_b64 fuel' lon_bounds
                 (PrimFloat.add lon 360%float)
                 (PrimFloat.add applied_rotation 360%float)
        else if PrimFloat.ltb (snd lon_bounds) lon then
          if PrimFloat.ltb 0%float applied_rotation
          then WrapError
          else wrap_loop_b64 fuel' lon_bounds
                 (PrimFloat.sub lon 360%float)
                 (PrimFloat.sub applied_rotation 360%float)
        else wrap_loop_b64 fuel' lon_bounds lon applied_rotation
      else Wrapped lon applied_rotation
  end.

Definition _wrap_lon_b64 (fuel : nat) (lon : float)
    (lon_bounds : float * float) : wrap_result :=
  wrap_loop_b64 fuel lon_bounds lon 0%float.

(** The rational number that a finite binary64 value stands for; [None]
    for NaN and the infinities. *)
Definition exact_value (x : float) : option Q :=
  match Prim2SF x with
  | S754_zero _ => Some 0
  | S754_finite s m e =>
      Some (inject_Z (if s then Z.neg m else Z.pos m) * Qpower 2 e)
  | _ => None
  end.

Definition represents (x : float) (q : Q) : Prop :=
  exists p, exact_value x = Some p /\ p == q.

(** Both values are finite and the binary64 comparison [x < y] is the
    comparison of the numbers they stand for. *)
Definition same_order (x y : float) : bool :=
  match exact_value x, exact_value y with
  | Some p, Some q => Bool.eqb (PrimFloat.ltb x y) (Qltb p q)
  | _, _ => false
  end.

(** [x + 360] is computed without rounding. *)
Definition exact_plus_360 (x : float) : bool :=
  match exact_value x, exact_value (PrimFloat.add x 360%float) with
  | Some p, Some r => Qeq_bool r (p + 360)
  | _, _ => false
  end.

(** [x - 360] is computed without rounding. *)
Definition exact_minus_360 (x : float) : bool :=
  match exact_value x, exact_value (PrimFloat.sub x 360%float) with
  | Some p, Some r => Qeq_bool r (p - 360)
  | _, _ => false
  end.

(** The run of [wrap_loop_b64] from this state stays on finite values and
    none of its additions or subtractions of 360 rounds, for as long as the
    fuel lasts. *)
Fixpoint exact_run (fuel : nat) (lon_bounds : float * float)
    (lon applied_rotation : float) : bool :=
  match fuel with
  | O => true
  | S fuel' =>
      same_order lon (fst lon_bounds) && same_order (snd lon_bounds) lon &&
      (if PrimFloat.ltb lon (fst lon_bounds)
          || PrimFloat.ltb (snd lon_bounds) lon then
         if PrimFloat.ltb lon (fst lon_bounds) then
           same_order applied_rotation 0%float &&
           (if PrimFloat.ltb applied_rotation 0%float then true
            else exact_plus_360 lon && exact_plus_360 applied_rotation &&
                 exact_run fuel' lon_bounds
                   (PrimFloat.add lon 360%float)
                   (PrimFloat.add applied_rotation 360%float))
         else if PrimFloat.ltb (snd lon_bounds) lon then
           same_order 0%float applied_rotation &&
           (if PrimFloat.ltb 0%float applied_rotation then true
            else exact_minus_360 lon && exact_minus_360 applied_rotation &&
                 exact_run fuel' lon_bounds
                   (PrimFloat.sub lon 360%float)
                   (PrimFloat.sub applied_rotation 360%float))
         else exact_run fuel' lon_bounds lon applied_rotation
       else true)
  end.

(** A result on binary64 and an outcome on exact numbers that tell the
    same story. *)
Definition agrees (r : wrap_result) (o : outcome (Q * Q)) : Prop :=
  match r, o with
  | Wrapped w off, Ret (qw, qoff) => represents w qw /\ represents off qoff
  | WrapError, Raise _ => True
  | WrapOutOfFuel, OutOfFuel => True
  | _, _ => False
  end.

(** Every in-memory entry is the content of the pickle of its identifier. *)
Definition coherent (w : world) : Prop :=
  forall (identifier : string) (info : LookupInfo),
    LOOKUP_INFO w !! identifier = Some info ->
    pickles w !! identifier = Some info.

(** * Properties *)

Lemma Qltb_true x y : Qltb x y = true <-> x < y.
Proof.
  unfold Qltb. rewrite negb_true_iff. split.
  - intros H. apply Qnot_le_lt. intros Hle.
    apply Qle_bool_iff in Hle. congruence.
  - intros H. destruct (Qle_bool y x) eqn:E; [|reflexivity].
    apply Qle_bool_iff in E. exfalso. apply (Qlt_not_le _ _ H E).
Qed.

Lemma Qltb_false x y : Qltb x y = false <-> y <= x.
Proof.
  unfold Qltb. rewrite negb_false_iff. apply Qle_bool_iff.
Qed.


Lemma inject_Z_succ (k : Z) : inject_Z (k + 1) == inject_Z k + 1.
Proof. rewrite inject_Z_plus. reflexivity. Qed.

Lemma inject_Z_pred (k : Z) : inject_Z (k - 1) == inject_Z k - 1.
Proof.
  unfold Z.sub. rewrite inject_Z_plus. reflexivity.
Qed.

Lemma inject_nat_succ (n : nat) :
  inject_Z (Z.of_nat (S n)) == inject_Z (Z.of_nat n) + 1.
Proof. rewrite Nat2Z.inj_succ. unfold Z.succ. apply inject_Z_succ. Qed.

Lemma inject_nat_nonneg (n : nat) : 0 <= inject_Z (Z.of_nat n).
Proof.
  change 0 with (inject_Z 0). rewrite <- Zle_Qle. apply Nat2Z.is_nonneg.
Qed.

(** Enough whole turns cover any distance. *)
Lemma turns_cover (x : Q) : exists n : nat, x <= 360 * inject_Z (Z.of_nat n).
Proof.
  exists (Z.to_nat (Qceiling x)).
  pose proof (Qle_ceiling x) as Hx.
  pose proof (inject_nat_nonneg (Z.to_nat (Qceiling x))) as Hn.
  destruct (Z_le_gt_dec 0 (Qceiling x)) as [Hp | Hneg].
  - rewrite Z2Nat.id in * by exact Hp. lra.
  - assert (inject_Z (Qceiling x) <= 0) as Hc.
    { change 0 with (inject_Z 0). rewrite <- Zle_Qle. lia. }
    lra.
Qed.

(** *** Single steps of the loop *)

Lemma wrap_loop_inside fuel lon0 a b cur rot :
  a <= cur -> cur <= b ->
  wrap_loop (S fuel) lon0 (a, b) cur rot = Ret (cur, rot).
Proof.
  intros Ha Hb. cbn [wrap_loop fst snd].
  apply Qltb_false in Ha, Hb. rewrite Ha, Hb. reflexivity.
Qed.

Lemma wrap_loop_add fuel lon0 a b cur rot :
  cur < a -> 0 <= rot ->
  wrap_loop (S fuel) lon0 (a, b) cur rot
  = wrap_loop fuel lon0 (a, b) (cur + 360) (rot + 360).
Proof.
  intros Ha Hr. cbn [wrap_loop fst snd].
  apply Qltb_true in Ha. apply Qltb_false in Hr. rewrite Ha, Hr.
  reflexivity.
Qed.

Lemma wrap_loop_sub fuel lon0 a b cur rot :
  a <= cur -> b < cur -> rot <= 0 ->
  wrap_loop (S fuel) lon0 (a, b) cur rot
  = wrap_loop fuel lon0 (a, b) (cur - 360) (rot - 360).
Proof.
  intros Ha Hb Hr. cbn [wrap_loop fst snd].
  apply Qltb_false in Ha, Hr. apply Qltb_true in Hb. rewrite Ha, Hb, Hr.
  reflexivity.
Qed.

(** The direction-consistency guard, first branch (utils.py:54-55). *)
Lemma wrap_loop_guard_add fuel lon0 a b cur rot :
  cur < a -> rot < 0 ->
  wrap_loop (S fuel) lon0 (a, b) cur rot
  = Raise (ValueError (MsgCannotPlace lon0 (a, b))).
Proof.
  intros Ha Hr. cbn [wrap_loop fst snd].
  apply Qltb_true in Ha, Hr. rewrite Ha, Hr. reflexivity.
Qed.

(** The direction-consistency guard, second branch (utils.py:60-61). *)
Lemma wrap_loop_guard_sub fuel lon0 a b cur rot :
  a <= cur -> b < cur -> 0 < rot ->
  wrap_loop (S fuel) lon0 (a, b) cur rot
  = Raise (ValueError (MsgCannotPlace lon0 (a, b))).
Proof.
  intros Ha Hb Hr. cbn [wrap_loop fst snd].
  apply Qltb_false in Ha. apply Qltb_true in Hb, Hr. rewrite Ha, Hb, Hr.
  reflexivity.
Qed.

(** *** The loop invariant: the running offset is a whole number of turns
    and separates the current value from the original one. *)

Lemma wrap_loop_invariant fuel lon0 bounds :
  forall cur rot (k : Z) w off,
    cur - rot == lon0 -> rot == 360 * inject_Z k ->
    wrap_loop fuel lon0 bounds cur rot = Ret (w, off) ->
    w - off == lon0 /\ exists k' : Z, off == 360 * inject_Z k'.
Proof.
  induction fuel as [|fuel IH]; intros cur rot k w off Hinv Hk Hrun.
  - discriminate.
  - cbn [wrap_loop] in Hrun.
    destruct (Qltb cur (fst bounds) || Qltb (snd bounds) cur).
    + destruct (Qltb cur (fst bounds)).
      * destruct (Qltb rot 0); [discriminate|].
        apply (IH _ _ (k + 1)%Z _ _) in Hrun; [exact Hrun | lra |].
        rewrite inject_Z_succ. lra.
      * destruct (Qltb (snd bounds) cur).
        -- destruct (Qltb 0 rot); [discriminate|].
           apply (IH _ _ (k - 1)%Z _ _) in Hrun; [exact Hrun | lra |].
           rewrite inject_Z_pred. lra.
        -- apply (IH _ _ k _ _) in Hrun; assumption.
    + injection Hrun as <- <-. split; [exact Hinv | exists k; exact Hk].
Qed.

(** *** Upward and downward phases under bounds at least one turn wide *)



(** *** Values that no whole number of turns brings inside the bounds *)






(** *** The loop ends on every input *)

Lemma wrap_loop_up_ends (n : nat) :
  forall lon0 a b cur rot,
    0 < rot -> a - cur <= 360 * inject_Z (Z.of_nat n) ->
    forall fuel, (n < fuel)%nat ->
      wrap_loop fuel lon0 (a, b) cur rot <> OutOfFuel.
Proof.
  induction n as [|n IH]; intros lon0 a b cur rot Hrot Hn [|fuel] Hf;
    try lia.
  - change (inject_Z (Z.of_nat 0)) with 0 in Hn.
    destruct (Qlt_le_dec b cur) as [Hgt | Hle].
    + rewrite wrap_loop_guard_sub by lra. discriminate.
    + rewrite wrap_loop_inside by lra. discriminate.
  - destruct (Qlt_le_dec cur a) as [Hlt | Hge].
    + rewrite wrap_loop_add by lra. rewrite inject_nat_succ in Hn.
      apply IH; [lra | lra | lia].
    + destruct (Qlt_le_dec b cur) as [Hgt | Hle].
      * rewrite wrap_loop_guard_sub by lra. discriminate.
      * rewrite wrap_loop_inside by lra. discriminate.
Qed.

Lemma wrap_loop_down_ends (n : nat) :
  forall lon0 a b cur rot,
    rot < 0 -> cur - b <= 360 * inject_Z (Z.of_nat n) ->
    forall fuel, (n < fuel)%nat ->
      wrap_loop fuel lon0 (a, b) cur rot <> OutOfFuel.
Proof.
  induction n as [|n IH]; intros lon0 a b cur rot Hrot Hn [|fuel] Hf;
    try lia.
  - change (inject_Z (Z.of_nat 0)) with 0 in Hn.
    destruct (Qlt_le_dec cur a) as [Hlt | Hge].
    + rewrite wrap_loop_guard_add by lra. discriminate.
    + rewrite wrap_loop_inside by lra. discriminate.
  - destruct (Qlt_le_dec cur a) as [Hlt | Hge].
    + rewrite wrap_loop_guard_add by lra. discriminate.
    + destruct (Qlt_le_dec b cur) as [Hgt | Hle].
      * rewrite wrap_loop_sub by lra. rewrite inject_nat_succ in Hn.
        apply IH; [lra | lra | lia].
      * rewrite wrap_loop_inside by lra. discriminate.
Qed.

(** Whatever the bounds, [_wrap_lon] returns or raises once the fuel covers
    the distance to the bounds. *)
Lemma wrap_lon_ends (a b lon : Q) :
  exists fuel0, forall fuel, (fuel0 <= fuel)%nat ->
    _wrap_lon fuel lon (a, b) <> OutOfFuel.
Proof.
  unfold _wrap_lon. destruct (Qlt_le_dec lon a) as [Hlt | Hge].
  - destruct (turns_cover (a - (lon + 360))) as [n Hn].
    exists (S (S n)). intros [|fuel] Hf; [lia|].
    rewrite wrap_loop_add by lra.
    apply (wrap_loop_up_ends n); [lra | exact Hn | lia].
  - destruct (Qlt_le_dec b lon) as [Hgt | Hle].
    + destruct (turns_cover (lon - 360 - b)) as [n Hn].
      exists (S (S n)). intros [|fuel] Hf; [lia|].
      rewrite wrap_loop_sub by lra.
      apply (wrap_loop_down_ends n); [lra | exact Hn | lia].
    + exists 1%nat. intros [|fuel] Hf; [lia|].
      rewrite wrap_loop_inside by lra. discriminate.
Qed.

Lemma wrap_lon_offset fuel lon lon_bounds wrapped offset :
  _wrap_lon fuel lon lon_bounds = Ret (wrapped, offset) ->
  wrapped - offset == lon /\ exists k : Z, offset == 360 * inject_Z k.
Proof.
  intros Hrun. unfold _wrap_lon in Hrun.
  apply (wrap_loop_invariant _ _ _ _ _ 0%Z) in Hrun; [exact Hrun | lra |].
  change (inject_Z 0) with 0. lra.
Qed.

(** *** The loop on exact numbers *)

(** On exact numbers, whenever the loop returns, the wrapped value minus
    the returned offset is the original longitude and the offset is a whole
    multiple of 360. *)
Lemma wrap_lon_congruence (fuel : nat) (lon : Q) (lon_bounds : Q * Q)
    (wrapped offset : Q) :
  _wrap_lon fuel lon lon_bounds = Ret (wrapped, offset) ->
  wrapped - offset == lon /\
  exists k : Z, offset == 360 * inject_Z k /\ wrapped == lon + 360 * inject_Z k.
Proof.
  intros Hrun. apply wrap_lon_offset in Hrun.
  destruct Hrun as [Hinv [k Hk]]. split; [exact Hinv|].
  exists k. split; [exact Hk | lra].
Qed.




(** ** The caches *)

Lemma build_tree_body_fueled ds : build_tree_body ds <> OutOfFuel.
Proof.
  unfold build_tree_body. destruct (ds_lon ds), (ds_lat ds); discriminate.
Qed.

Lemma build_tree_body_raises ds e :
  build_tree_body ds = Raise e -> e = ValueError MsgEmptyData.
Proof.
  unfold build_tree_body. destruct (ds_lon ds), (ds_lat ds); congruence.
Qed.

Lemma get_lookup_info_hit ds identifier w info :
  LOOKUP_INFO w !! identifier = Some info ->
  get_lookup_info ds identifier w
  = (Ret info,
     {| LOOKUP_INFO := LOOKUP_INFO w; pickles := pickles w;
        trace := trace w ++ [EvMemProbe identifier; EvMemRead identifier] |}).
Proof.
  intros Hmem. unfold get_lookup_info, mem_get, bind, log, ret. simpl.
  rewrite Hmem. simpl. rewrite <- app_assoc. reflexivity.
Qed.

Lemma get_lookup_info_pickled ds identifier w info :
  LOOKUP_INFO w !! identifier = None ->
  pickles w !! identifier = Some info ->
  get_lookup_info ds identifier w
  = (Ret info,
     {| LOOKUP_INFO := <[identifier := info]> (LOOKUP_INFO w);
        pickles := pickles w;
        trace := trace w ++ [EvMemProbe identifier; EvPickleProbe identifier;
                             EvPickleLoad identifier; EvMemStore identifier] |}).
Proof.
  intros Hmem Hpkl.
  unfold get_lookup_info, build_tree, cache_to_pickle, mem_get, mem_store,
    pickle_get, bind, log, ret.
  simpl. rewrite Hmem. simpl. rewrite Hpkl. simpl.
  rewrite <- !app_assoc. reflexivity.
Qed.

Lemma get_lookup_info_built ds identifier w info :
  LOOKUP_INFO w !! identifier = None ->
  pickles w !! identifier = None ->
  build_tree_body ds = Ret info ->
  get_lookup_info ds identifier w
  = (Ret info,
     {| LOOKUP_INFO := <[identifier := info]> (LOOKUP_INFO w);
        pickles := <[identifier := info]> (pickles w);
        trace := trace w ++ [EvMemProbe identifier; EvPickleProbe identifier;
                             EvBuild identifier; EvPickleDump identifier;
                             EvMemStore identifier] |}).
Proof.
  intros Hmem Hpkl Hbuild.
  unfold get_lookup_info, build_tree, cache_to_pickle, mem_get, mem_store,
    pickle_get, pickle_dump, bind, log, ret, lift.
  simpl. rewrite Hmem. simpl. rewrite Hpkl. simpl. rewrite Hbuild. simpl.
  rewrite <- !app_assoc. reflexivity.
Qed.

Lemma get_lookup_info_build_fails ds identifier w e :
  LOOKUP_INFO w !! identifier = None ->
  pickles w !! identifier = None ->
  build_tree_body ds = Raise e ->
  get_lookup_info ds identifier w
  = (Raise e,
     {| LOOKUP_INFO := LOOKUP_INFO w; pickles := pickles w;
        trace := trace w ++ [EvMemProbe identifier; EvPickleProbe identifier;
                             EvBuild identifier] |}).
Proof.
  intros Hmem Hpkl Hbuild.
  unfold get_lookup_info, build_tree, cache_to_pickle, mem_get, mem_store,
    pickle_get, pickle_dump, bind, log, ret, lift.
  simpl. rewrite Hmem. simpl. rewrite Hpkl. simpl. rewrite Hbuild. simpl.
  rewrite <- !app_assoc. reflexivity.
Qed.

(** What a successful lookup leaves behind. *)
Lemma get_lookup_info_ret ds identifier w info w' :
  get_lookup_info ds identifier w = (Ret info, w') ->
  LOOKUP_INFO w' !! identifier = Some info /\
  (wf_world w -> is_Some (pickles w' !! identifier)) /\
  (LOOKUP_INFO w !! identifier = None -> pickles w !! identifier = None ->
   build_tree_body ds = Ret info /\ pickles w' !! identifier = Some info).
Proof.
  intros Hrun.
  destruct (LOOKUP_INFO w !! identifier) as [info0|] eqn:Hmem.
  - rewrite (get_lookup_info_hit _ _ _ _ Hmem) in Hrun.
    injection Hrun as <- <-. simpl. split; [exact Hmem|]. split.
    + intros Hwf. apply Hwf. rewrite Hmem. eauto.
    + discriminate.
  - destruct (pickles w !! identifier) as [info1|] eqn:Hpkl.
    + rewrite (get_lookup_info_pickled _ _ _ _ Hmem Hpkl) in Hrun.
      injection Hrun as <- <-. simpl. split; [apply lookup_insert_eq|].
      split; [rewrite Hpkl; eauto | discriminate].
    + destruct (build_tree_body ds) as [info2|e|] eqn:Hbuild.
      * rewrite (get_lookup_info_built _ _ _ _ Hmem Hpkl Hbuild) in Hrun.
        injection Hrun as <- <-. simpl.
        rewrite !lookup_insert_eq. eauto.
      * rewrite (get_lookup_info_build_fails _ _ _ _ Hmem Hpkl Hbuild) in Hrun.
        discriminate.
      * exfalso. exact (build_tree_body_fueled ds Hbuild).
Qed.

Lemma get_lookup_info_raises ds identifier w e w' :
  get_lookup_info ds identifier w = (Raise e, w') ->
  e = ValueError MsgEmptyData.
Proof.
  intros Hrun.
  destruct (LOOKUP_INFO w !! identifier) as [info0|] eqn:Hmem.
  - rewrite (get_lookup_info_hit _ _ _ _ Hmem) in Hrun. discriminate.
  - destruct (pickles w !! identifier) as [info1|] eqn:Hpkl.
    + rewrite (get_lookup_info_pickled _ _ _ _ Hmem Hpkl) in Hrun.
      discriminate.
    + destruct (build_tree_body ds) as [info2|e2|] eqn:Hbuild.
      * rewrite (get_lookup_info_built _ _ _ _ Hmem Hpkl Hbuild) in Hrun.
        discriminate.
      * rewrite (get_lookup_info_build_fails _ _ _ _ Hmem Hpkl Hbuild) in Hrun.
        injection Hrun as <- _. exact (build_tree_body_raises _ _ Hbuild).
      * exfalso. exact (build_tree_body_fueled ds Hbuild).
Qed.

Lemma get_lookup_info_fueled ds identifier w w' :
  get_lookup_info ds identifier w <> (OutOfFuel, w').
Proof.
  intros Hrun.
  destruct (LOOKUP_INFO w !! identifier) as [info0|] eqn:Hmem.
  - rewrite (get_lookup_info_hit _ _ _ _ Hmem) in Hrun. discriminate.
  - destruct (pickles w !! identifier) as [info1|] eqn:Hpkl.
    + rewrite (get_lookup_info_pickled _ _ _ _ Hmem Hpkl) in Hrun.
      discriminate.
    + destruct (build_tree_body ds) as [info2|e2|] eqn:Hbuild.
      * rewrite (get_lookup_info_built _ _ _ _ Hmem Hpkl Hbuild) in Hrun.
        discriminate.
      * rewrite (get_lookup_info_build_fails _ _ _ _ Hmem Hpkl Hbuild) in Hrun.
        discriminate.
      * exact (build_tree_body_fueled ds Hbuild).
Qed.

(** The function after its two argument checks. *)
Lemma sel_nearest_unfold fuel ds pt wrap_lon w identifier lon lat :
  ds_attrs ds !! "suite_name"%string = Some identifier ->
  pt_lon_lat pt = Ret (lon, lat) ->
  sel_nearest_to_latlon_pt fuel ds pt wrap_lon w
  = match get_lookup_info ds identifier w with
    | (Ret info, w') => (resolve fuel ds lon lat wrap_lon info, w')
    | (Raise e, w') => (Raise e, w')
    | (OutOfFuel, w') => (OutOfFuel, w')
    end.
Proof.
  intros Hid Hpt. unfold sel_nearest_to_latlon_pt. rewrite Hid.
  unfold bind, lift. rewrite Hpt. simpl.
  destruct (get_lookup_info ds identifier w) as [[info|e|] w']; reflexivity.
Qed.

Lemma sel_nearest_bad_pt fuel ds pt wrap_lon w identifier e :
  ds_attrs ds !! "suite_name"%string = Some identifier ->
  pt_lon_lat pt = Raise e ->
  sel_nearest_to_latlon_pt fuel ds pt wrap_lon w = (Raise e, w).
Proof.
  intros Hid Hpt. unfold sel_nearest_to_latlon_pt. rewrite Hid.
  unfold bind, lift. rewrite Hpt. reflexivity.
Qed.

Lemma pt_lon_lat_fueled pt : pt_lon_lat pt <> OutOfFuel.
Proof.
  destruct pt as [| | |d]; simpl; try discriminate.
  destruct (d !! "lon"%string); [|discriminate].
  destruct (d !! "lat"%string); discriminate.
Qed.

Lemma pt_lon_lat_raises pt e : pt_lon_lat pt = Raise e -> is_pt_error e.
Proof.
  destruct pt as [| | |d]; simpl; try (intros [= <-]; exact I).
  destruct (d !! "lon"%string); [|intros [= <-]; exact I].
  destruct (d !! "lat"%string); [discriminate | intros [= <-]; exact I].
Qed.

Lemma wf_world_fresh (files : gmap string LookupInfo) :
  wf_world {| LOOKUP_INFO := ∅; pickles := files; trace := [] |}.
Proof.
  intros identifier. simpl. rewrite lookup_empty. intros [x Hx]. discriminate.
Qed.

Lemma get_lookup_info_wf ds identifier w :
  wf_world w -> wf_world (snd (get_lookup_info ds identifier w)).
Proof.
  intros Hwf.
  destruct (LOOKUP_INFO w !! identifier) as [info0|] eqn:Hmem.
  - rewrite (get_lookup_info_hit _ _ _ _ Hmem). exact Hwf.
  - destruct (pickles w !! identifier) as [info1|] eqn:Hpkl.
    + rewrite (get_lookup_info_pickled _ _ _ _ Hmem Hpkl).
      intros id'. simpl. destruct (decide (identifier = id')) as [<-|Hne].
      * rewrite Hpkl. eauto.
      * rewrite lookup_insert_ne by exact Hne. apply Hwf.
    + destruct (build_tree_body ds) as [info2|e2|] eqn:Hbuild.
      * rewrite (get_lookup_info_built _ _ _ _ Hmem Hpkl Hbuild).
        intros id'. simpl. destruct (decide (identifier = id')) as [<-|Hne].
        -- rewrite !lookup_insert_eq. eauto.
        -- rewrite !lookup_insert_ne by exact Hne. apply Hwf.
      * rewrite (get_lookup_info_build_fails _ _ _ _ Hmem Hpkl Hbuild).
        exact Hwf.
      * exfalso. exact (build_tree_body_fueled ds Hbuild).
Qed.

(** Every call keeps the caches well formed. *)
Lemma sel_nearest_wf fuel ds pt wrap_lon w :
  wf_world w -> wf_world (snd (sel_nearest_to_latlon_pt fuel ds pt wrap_lon w)).
Proof.
  intros Hwf.
  destruct (ds_attrs ds !! "suite_name"%string) as [identifier|] eqn:Hid.
  - destruct (pt_lon_lat pt) as [[lon lat]|e|] eqn:Hpt.
    + rewrite (sel_nearest_unfold _ _ _ _ _ _ _ _ Hid Hpt).
      pose proof (get_lookup_info_wf ds identifier w Hwf) as Hwf'.
      destruct (get_lookup_info ds identifier w) as [[info|e|] w']; exact Hwf'.
    + rewrite (sel_nearest_bad_pt _ _ _ _ _ _ _ Hid Hpt). exact Hwf.
    + exfalso. exact (pt_lon_lat_fueled pt Hpt).
  - unfold sel_nearest_to_latlon_pt. rewrite Hid. exact Hwf.
Qed.

Lemma get_lookup_info_keeps ds id2 w identifier info :
  LOOKUP_INFO w !! identifier = Some info ->
  LOOKUP_INFO (snd (get_lookup_info ds id2 w)) !! identifier = Some info.
Proof.
  intros Hentry.
  destruct (LOOKUP_INFO w !! id2) as [info0|] eqn:Hmem.
  - rewrite (get_lookup_info_hit _ _ _ _ Hmem). exact Hentry.
  - assert (id2 <> identifier) as Hne by congruence.
    destruct (pickles w !! id2) as [info1|] eqn:Hpkl.
    + rewrite (get_lookup_info_pickled _ _ _ _ Hmem Hpkl). simpl.
      rewrite lookup_insert_ne by exact Hne. exact Hentry.
    + destruct (build_tree_body ds) as [info2|e2|] eqn:Hbuild.
      * rewrite (get_lookup_info_built _ _ _ _ Hmem Hpkl Hbuild). simpl.
        rewrite lookup_insert_ne by exact Hne. exact Hentry.
      * rewrite (get_lookup_info_build_fails _ _ _ _ Hmem Hpkl Hbuild).
        exact Hentry.
      * exfalso. exact (build_tree_body_fueled ds Hbuild).
Qed.

(** No call removes or replaces an in-memory entry. *)
Lemma sel_nearest_keeps fuel ds pt wrap_lon w identifier info :
  LOOKUP_INFO w !! identifier = Some info ->
  LOOKUP_INFO (snd (sel_nearest_to_latlon_pt fuel ds pt wrap_lon w))
    !! identifier = Some info.
Proof.
  intros Hentry.
  destruct (ds_attrs ds !! "suite_name"%string) as [id2|] eqn:Hid.
  - destruct (pt_lon_lat pt) as [[lon lat]|e|] eqn:Hpt.
    + rewrite (sel_nearest_unfold _ _ _ _ _ _ _ _ Hid Hpt).
      pose proof (get_lookup_info_keeps ds id2 w _ _ Hentry) as Hkeep.
      destruct (get_lookup_info ds id2 w) as [[info'|e|] w']; exact Hkeep.
    + rewrite (sel_nearest_bad_pt _ _ _ _ _ _ _ Hid Hpt). exact Hentry.
    + exfalso. exact (pt_lon_lat_fueled pt Hpt).
  - unfold sel_nearest_to_latlon_pt. rewrite Hid. exact Hentry.
Qed.

Lemma calls_keep w w' identifier info :
  calls w w' ->
  LOOKUP_INFO w !! identifier = Some info ->
  LOOKUP_INFO w' !! identifier = Some info.
Proof.
  induction 1 as [w | w w' fuel ds pt wrap_lon _ IH]; intros Hentry.
  - exact Hentry.
  - apply sel_nearest_keeps. apply IH. exact Hentry.
Qed.

Lemma calls_wf w w' : calls w w' -> wf_world w -> wf_world w'.
Proof.
  induction 1 as [w | w w' fuel ds pt wrap_lon _ IH]; intros Hwf.
  - exact Hwf.
  - apply sel_nearest_wf. apply IH. exact Hwf.
Qed.

(** ** Slicing and resolving *)

Lemma wrap_loop_raises fuel lon0 bounds :
  forall cur rot e,
    wrap_loop fuel lon0 bounds cur rot = Raise e ->
    e = ValueError (MsgCannotPlace lon0 bounds).
Proof.
  induction fuel as [|fuel IH]; intros cur rot e Hrun; [discriminate|].
  cbn [wrap_loop] in Hrun.
  destruct (Qltb cur (fst bounds) || Qltb (snd bounds) cur); [|discriminate].
  destruct (Qltb cur (fst bounds)).
  - destruct (Qltb rot 0); [congruence | eauto].
  - destruct (Qltb (snd bounds) cur); [|eauto].
    destruct (Qltb 0 rot); [congruence | eauto].
Qed.

Lemma isel_raises ds i j e : isel ds i j = Raise e -> e = IndexError.
Proof.
  unfold isel.
  destruct (flat_position (ds_dims ds) (ds_shape ds) i j) as [p|];
    [|congruence].
  destruct (ds_lon ds !! p), (ds_lat ds !! p), (isel_vars (ds_vars ds) p);
    congruence.
Qed.

Lemma isel_fueled ds i j : isel ds i j <> OutOfFuel.
Proof.
  unfold isel.
  destruct (flat_position (ds_dims ds) (ds_shape ds) i j) as [p|];
    [|congruence].
  destruct (ds_lon ds !! p), (ds_lat ds !! p), (isel_vars (ds_vars ds) p);
    congruence.
Qed.

(** With [wrap_lon=False] the two locals are never bound. *)
Lemma resolve_no_wrap fuel ds lon lat info :
  resolve fuel ds lon lat false info
  = if outside lon (bounds_lon info)
    then Raise (ValueError (MsgLonOutside lon (bounds_lon info)))
    else if outside lat (bounds_lat info)
    then Raise (ValueError (MsgLatOutside lat (bounds_lat info)))
    else Raise (UnboundLocalError "lon_wrapped").
Proof.
  unfold resolve. destruct (outside lon (bounds_lon info)); reflexivity.
Qed.


Lemma resolve_raises fuel ds lon lat wrap_lon info e :
  resolve fuel ds lon lat wrap_lon info = Raise e ->
  is_out_of_bounds e \/ e = UnboundLocalError "lon_wrapped" \/ e = IndexError.
Proof.
  destruct wrap_lon.
  - unfold resolve.
    destruct (_wrap_lon fuel lon (bounds_lon info)) as [[lw off]|e'|] eqn:Hw.
    + destruct (outside lat (bounds_lat info)).
      * intros [= <-]. left. exact I.
      * destruct (ds_shape ds) as [nx ny].
        destruct (isel ds _ _) as [cell|e'|] eqn:Hsel; try discriminate.
        intros [= <-]. right. right. exact (isel_raises _ _ _ _ Hsel).
    + intros [= <-]. apply wrap_loop_raises in Hw. subst e'. left. exact I.
    + discriminate.
  - rewrite resolve_no_wrap.
    destruct (outside lon (bounds_lon info)); [intros [= <-]; left; exact I|].
    destruct (outside lat (bounds_lat info)); intros [= <-];
      [left; exact I | right; left; reflexivity].
Qed.

(** ** The nearest-neighbour scan *)

Lemma nearest_from_lt q pts :
  forall i best d, (best < i)%nat ->
    (nearest_from q pts i best d < i + length pts)%nat.
Proof.
  induction pts as [|p rest IH]; intros i best d Hbest; simpl.
  - lia.
  - destruct (Qltb (dist2 p q) d).
    + specialize (IH (S i) i (dist2 p q)). lia.
    + specialize (IH (S i) best d). lia.
Qed.

Lemma kd_query_lt pts q : pts <> [] -> (kd_query pts q < length pts)%nat.
Proof.
  destruct pts as [|p rest]; [congruence|]. intros _. simpl.
  pose proof (nearest_from_lt q rest 1 0 (dist2 p q)). lia.
Qed.

Lemma nearest_from_spec q (all : list (Q * Q)) :
  forall pts i best d pb,
    drop i all = pts ->
    all !! best = Some pb -> d == dist2 pb q ->
    (forall j p, (j < i)%nat -> all !! j = Some p -> d <= dist2 p q) ->
    exists pr, all !! nearest_from q pts i best d = Some pr /\
      forall j p, all !! j = Some p -> dist2 pr q <= dist2 p q.
Proof.
  induction pts as [|p rest IH]; intros i best d pb Hdrop Hbest Hd Hmin.
  - simpl. exists pb. split; [exact Hbest|].
    intros j p' Hj. rewrite <- Hd. apply (Hmin j); [|exact Hj].
    apply lookup_lt_Some in Hj.
    apply (f_equal length) in Hdrop. rewrite length_drop in Hdrop.
    simpl in Hdrop. lia.
  - assert (all !! i = Some p) as Hi.
    { rewrite <- (Nat.add_0_r i), <- lookup_drop, Hdrop. reflexivity. }
    assert (drop (S i) all = rest) as Hdrop'.
    { replace (S i) with (i + 1)%nat by lia.
      rewrite <- drop_drop, Hdrop. reflexivity. }
    simpl. destruct (Qltb (dist2 p q) d) eqn:E.
    + apply Qltb_true in E.
      apply (IH (S i) i (dist2 p q) p Hdrop' Hi); [reflexivity|].
      intros j p' Hj Hp'. destruct (decide (j = i)) as [->|Hne].
      * rewrite Hi in Hp'. injection Hp' as <-. apply Qle_refl.
      * apply Qle_trans with d; [lra|]. apply (Hmin j); [lia | exact Hp'].
    + apply Qltb_false in E.
      apply (IH (S i) best d pb Hdrop' Hbest Hd).
      intros j p' Hj Hp'. destruct (decide (j = i)) as [->|Hne].
      * rewrite Hi in Hp'. injection Hp' as <-. exact E.
      * apply (Hmin j); [lia | exact Hp'].
Qed.

(** The index that the query returns names a point of the set that is at
    least as close to [q] as every other one. *)
Lemma kd_query_nearest pts q :
  pts <> [] ->
  exists pr, pts !! kd_query pts q = Some pr /\
    forall j p, pts !! j = Some p -> dist2 pr q <= dist2 p q.
Proof.
  destruct pts as [|p0 rest]; [congruence|]. intros _. unfold kd_query.
  apply (nearest_from_spec q (p0 :: rest) rest 1 0 (dist2 p0 q) p0);
    [reflexivity | reflexivity | reflexivity |].
  intros j p Hj Hp. assert (j = 0)%nat as -> by lia.
  simpl in Hp. injection Hp as <-. apply Qle_refl.
Qed.

(** ** Inverting the flat index *)

Lemma flat_position_yx nx ny k :
  (k < nx * ny)%nat ->
  flat_position DimsYX (nx, ny) (k mod ny) (k / ny) = Some k.
Proof.
  intros Hk. assert (ny <> 0)%nat as Hny by lia.
  unfold flat_position.
  assert (k / ny < nx)%nat as Hj.
  { apply Nat.Div0.div_lt_upper_bound. lia. }
  assert (k mod ny < ny)%nat as Hi by (apply Nat.mod_upper_bound; exact Hny).
  apply Nat.ltb_lt in Hj, Hi. rewrite Hj, Hi. simpl. f_equal.
  pose proof (Nat.div_mod_eq k ny). lia.
Qed.

Lemma isel_vars_total (vars : list (string * list Q)) (p n : nat) :
  Forall (fun v => length (snd v) = n) vars -> (p < n)%nat ->
  is_Some (isel_vars vars p).
Proof.
  induction 1 as [|[name vals] rest Hlen _ IH]; intros Hp; simpl.
  - eauto.
  - simpl in Hlen. destruct (lookup_lt_is_Some_2 vals p) as [v Hv]; [lia|].
    rewrite Hv. destruct (IH Hp) as [out Hout]. rewrite Hout. eauto.
Qed.


(** * The claims about [sel_nearest_to_latlon_pt] *)

(** C1.  With [wrap_lon=False] the function never reaches the slice: after
    the two bounds checks it reads [lon_wrapped], which only the
    [wrap_lon=True] branch assigns, and raises [UnboundLocalError].  The
    query point (1, 51) lies inside the bounds of [grid_yx]; the call fails
    with [wrap_lon=False] and returns the cell at (1, 51) with
    [wrap_lon=True]. *)
Theorem wrap_lon_false_unbound_local :
  (forall fuel ds lon lat info,
     resolve fuel ds lon lat false info
     = if outside lon (bounds_lon info)
       then Raise (ValueError (MsgLonOutside lon (bounds_lon info)))
       else if outside lat (bounds_lat info)
       then Raise (ValueError (MsgLatOutside lat (bounds_lat info)))
       else Raise (UnboundLocalError "lon_wrapped")) /\
  fst (sel_nearest_to_latlon_pt 5 grid_yx (pt_of 1 51) false empty_world)
  = Raise (UnboundLocalError "lon_wrapped") /\
  exists r,
    fst (sel_nearest_to_latlon_pt 5 grid_yx (pt_of 1 51) true empty_world)
    = Ret r /\ pt_lon r == 1 /\ pt_lat r == 51.
Proof.
  split; [exact resolve_no_wrap|]. split; [reflexivity|].
  eexists. split; [reflexivity|]. split; reflexivity.
Qed.

Lemma wf_grid_yx : wf_dataset grid_yx.
Proof. repeat split. repeat constructor. Defined.

(** C2.  The inversion at utils.py:134 is the transpose of the flattening
    when the arrays are stored as (x, y), which is how
    [nx, ny = ds.lon.shape] reads the shape.  On [grid_xy], of shape
    [(nx, ny) = (2, 3)] with y varying fastest, the query at the grid point
    (1, 51), whose flat index is 1, returns the cell (10, 60); the query at
    the grid point (2, 52), flat index 2, raises [IndexError].  On the same
    buffers stored as (y, x) the query at (1, 51) returns that cell. *)
Theorem flat_index_inversion_transposed :
  ds_dims grid_xy = DimsXY /\ ds_shape grid_xy = (2, 3)%nat /\
  zip (ds_lon grid_xy) (ds_lat grid_xy) !! 1%nat = Some (1, 51) /\
  zip (ds_lon grid_xy) (ds_lat grid_xy) !! 2%nat = Some (2, 52) /\
  (exists r,
     fst (sel_nearest_to_latlon_pt 5 grid_xy (pt_of 1 51) true empty_world)
     = Ret r /\ pt_lon r == 10 /\ pt_lat r == 60) /\
  fst (sel_nearest_to_latlon_pt 5 grid_xy (pt_of 2 52) true empty_world)
  = Raise IndexError /\
  (exists r,
     fst (sel_nearest_to_latlon_pt 5 grid_yx (pt_of 1 51) true empty_world)
     = Ret r /\ pt_lon r == 1 /\ pt_lat r == 51).
Proof.
  repeat (split; [reflexivity|]). split; [|split; [reflexivity|]].
  - eexists. split; [reflexivity|]. split; reflexivity.
  - eexists. split; [reflexivity|]. split; reflexivity.
Qed.



Example unwrap_scenario_355 :
  build_tree_body grid_strip
  = Ret {| tree := zip (ds_lon grid_strip) (ds_lat grid_strip);
           bounds_lat := (0, 0); bounds_lon := (-10, 10) |} /\
  _wrap_lon 5 355 (-10, 10) = Ret (-5, -360) /\
  fst (sel_nearest_to_latlon_pt 5 grid_strip (pt_of 355 0) true empty_world)
  = Ret {| pt_lon := 355; pt_lat := 0; pt_vars := [("t2m"%string, 281)] |}.
Proof. repeat split. Qed.




(** C8.  A dataset without the [suite_name] attribute fails with the
    [ValueError] of utils.py:90 before either cache is touched: the world
    after the call, trace of accesses included, is the world before it. *)
Theorem missing_identifier_fails_fast (fuel : nat) (ds : Dataset)
    (pt : pyobj) (wrap_lon : bool) (w : world) :
  ds_attrs ds !! "suite_name"%string = None ->
  sel_nearest_to_latlon_pt fuel ds pt wrap_lon w
  = (Raise (ValueError MsgNoSuiteName), w).
Proof.
  intros Hid. unfold sel_nearest_to_latlon_pt. rewrite Hid. reflexivity.
Qed.

Lemma missing_identifier_fails_fast_witness :
  ds_attrs grid_anonymous !! "suite_name"%string = None /\
  sel_nearest_to_latlon_pt 5 grid_anonymous (pt_of 0 0) true empty_world
  = (Raise (ValueError MsgNoSuiteName), empty_world).
Proof.
  split; [reflexivity|].
  apply (missing_identifier_fails_fast 5 grid_anonymous). reflexivity.
Defined.



(** C10.  When a call on a dataset with an identifier ends in one of the
    out-of-bounds [ValueError]s, the lookup information for the identifier
    is in [LOOKUP_INFO] and has a pickle when the exception leaves the
    function; if neither existed before the call, both hold the index built
    from this dataset. *)
Theorem out_of_bounds_after_caching (fuel : nat) (ds : Dataset) (pt : pyobj)
    (wrap_lon : bool) (w : world) (identifier : string) (e : exn) :
  wf_world w ->
  ds_attrs ds !! "suite_name"%string = Some identifier ->
  fst (sel_nearest_to_latlon_pt fuel ds pt wrap_lon w) = Raise e ->
  is_out_of_bounds e ->
  let w' := snd (sel_nearest_to_latlon_pt fuel ds pt wrap_lon w) in
  exists info,
    LOOKUP_INFO w' !! identifier = Some info /\
    is_Some (pickles w' !! identifier) /\
    (LOOKUP_INFO w !! identifier = None -> pickles w !! identifier = None ->
     build_tree_body ds = Ret info /\ pickles w' !! identifier = Some info).
Proof.
  intros Hwf Hid Hrun Hoob w'. subst w'.
  destruct (pt_lon_lat pt) as [[lon lat]|e'|] eqn:Hpt.
  - rewrite (sel_nearest_unfold _ _ _ _ _ _ _ _ Hid Hpt) in *.
    destruct (get_lookup_info ds identifier w) as [[info|e'|] w1] eqn:Hget;
      simpl in *.
    + apply get_lookup_info_ret in Hget.
      destruct Hget as (Hmem & Hpkl & Hbuilt).
      exists info. split; [exact Hmem|]. split; [exact (Hpkl Hwf)|exact Hbuilt].
    + injection Hrun as ->. apply get_lookup_info_raises in Hget. subst e.
      contradiction.
    + discriminate.
  - rewrite (sel_nearest_bad_pt _ _ _ _ _ _ _ Hid Hpt) in Hrun.
    simpl in Hrun. injection Hrun as ->.
    apply pt_lon_lat_raises in Hpt. destruct e as [[]| | | |]; contradiction.
  - exfalso. exact (pt_lon_lat_fueled pt Hpt).
Qed.

Lemma out_of_bounds_after_caching_witness :
  wf_world empty_world /\
  fst (sel_nearest_to_latlon_pt 5 grid_yx (pt_of 1 95) true empty_world)
  = Raise (ValueError (MsgLatOutside 95 (50, 62))) /\
  let w' := snd (sel_nearest_to_latlon_pt 5 grid_yx (pt_of 1 95) true
                   empty_world) in
  exists info,
    LOOKUP_INFO w' !! "dini"%string = Some info /\
    is_Some (pickles w' !! "dini"%string) /\
    (LOOKUP_INFO empty_world !! "dini"%string = None ->
     pickles empty_world !! "dini"%string = None ->
     build_tree_body grid_yx = Ret info /\
     pickles w' !! "dini"%string = Some info).
Proof.
  split; [exact (wf_world_fresh ∅)|]. split; [reflexivity|].
  apply (out_of_bounds_after_caching 5 grid_yx (pt_of 1 95) true empty_world
           "dini" (ValueError (MsgLatOutside 95 (50, 62))));
    [exact (wf_world_fresh ∅) | reflexivity | reflexivity | exact I].
Defined.

(** * Further properties of [_wrap_lon] *)

Lemma wrap_loop_ret_inside fuel lon0 a b :
  forall cur rot w off,
    wrap_loop fuel lon0 (a, b) cur rot = Ret (w, off) -> a <= w /\ w <= b.
Proof.
  induction fuel as [|fuel IH]; intros cur rot w off Hrun; [discriminate|].
  cbn [wrap_loop fst snd] in Hrun.
  destruct (Qltb cur a) eqn:Ea.
  - simpl in Hrun. destruct (Qltb rot 0); [discriminate | eauto].
  - destruct (Qltb b cur) eqn:Eb; simpl in Hrun.
    + destruct (Qltb 0 rot); [discriminate | eauto].
    + injection Hrun as <- <-.
      apply Qltb_false in Ea, Eb. split; assumption.
Qed.

(** X2.  Wrapping is idempotent: the value that [_wrap_lon] returns is
    returned unchanged, with offset 0, when it is wrapped again to the same
    bounds. *)
Theorem wrap_lon_idempotent (fuel fuel' : nat) (lon a b wrapped offset : Q) :
  _wrap_lon fuel lon (a, b) = Ret (wrapped, offset) ->
  _wrap_lon (S fuel') wrapped (a, b) = Ret (wrapped, 0).
Proof.
  intros Hrun.
  destruct (wrap_loop_ret_inside _ _ _ _ _ _ _ _ Hrun) as [Ha Hb].
  apply wrap_loop_inside; assumption.
Qed.

Lemma wrap_lon_idempotent_witness :
  _wrap_lon 5 355 (-10, 10) = Ret (-5, -360) /\
  _wrap_lon 1 (-5) (-10, 10) = Ret (-5, 0).
Proof.
  split; [reflexivity|].
  apply (wrap_lon_idempotent 5 0 355 (-10) 10 (-5) (-360)). reflexivity.
Defined.

(** * Further properties of the index and of the query *)

Lemma fold_min_lower (l : list Q) :
  forall x, fold_left Qmin l x <= x /\
    forall v, In v l -> fold_left Qmin l x <= v.
Proof.
  induction l as [|y l IH]; intros x; simpl.
  - split; [apply Qle_refl | intros v []].
  - destruct (IH (Qmin x y)) as [Hhead Hrest].
    pose proof (Q.le_min_l x y). pose proof (Q.le_min_r x y).
    split; [lra|]. intros v [<- | Hin]; [lra | exact (Hrest v Hin)].
Qed.

Lemma fold_max_upper (l : list Q) :
  forall x, x <= fold_left Qmax l x /\
    forall v, In v l -> v <= fold_left Qmax l x.
Proof.
  induction l as [|y l IH]; intros x; simpl.
  - split; [apply Qle_refl | intros v []].
  - destruct (IH (Qmax x y)) as [Hhead Hrest].
    pose proof (Q.le_max_l x y). pose proof (Q.le_max_r x y).
    split; [lra|]. intros v [<- | Hin]; [lra | exact (Hrest v Hin)].
Qed.

Lemma fold_min_attained (l : list Q) :
  forall x, exists v, In v (x :: l) /\ v == fold_left Qmin l x.
Proof.
  induction l as [|y l IH]; intros x; simpl.
  - exists x. split; [left; reflexivity | reflexivity].
  - destruct (IH (Qmin x y)) as [v [[<- | Hin] Hv]].
    + destruct (Q.min_dec x y) as [E | E].
      * exists x. split; [left; reflexivity | rewrite <- Hv, E; reflexivity].
      * exists y. split; [right; left; reflexivity|].
        rewrite <- Hv, E. reflexivity.
    + exists v. split; [right; right; exact Hin | exact Hv].
Qed.

Lemma fold_max_attained (l : list Q) :
  forall x, exists v, In v (x :: l) /\ v == fold_left Qmax l x.
Proof.
  induction l as [|y l IH]; intros x; simpl.
  - exists x. split; [left; reflexivity | reflexivity].
  - destruct (IH (Qmax x y)) as [v [[<- | Hin] Hv]].
    + destruct (Q.max_dec x y) as [E | E].
      * exists x. split; [left; reflexivity | rewrite <- Hv, E; reflexivity].
      * exists y. split; [right; left; reflexivity|].
        rewrite <- Hv, E. reflexivity.
    + exists v. split; [right; right; exact Hin | exact Hv].
Qed.

Lemma build_tree_body_box ds info :
  build_tree_body ds = Ret info ->
  tree info = zip (ds_lon ds) (ds_lat ds) /\
  (forall v, In v (ds_lon ds) ->
     fst (bounds_lon info) <= v /\ v <= snd (bounds_lon info)) /\
  (forall v, In v (ds_lat ds) ->
     fst (bounds_lat info) <= v /\ v <= snd (bounds_lat info)).
Proof.
  unfold build_tree_body.
  destruct (ds_lon ds) as [|x xs]; [discriminate|].
  destruct (ds_lat ds) as [|y ys]; [discriminate|].
  intros [= <-]. simpl. split; [reflexivity|].
  destruct (fold_min_lower xs x) as [Hx1 Hx2].
  destruct (fold_max_upper xs x) as [Hx3 Hx4].
  destruct (fold_min_lower ys y) as [Hy1 Hy2].
  destruct (fold_max_upper ys y) as [Hy3 Hy4].
  split; intros v [<- | Hin]; split; auto.
Qed.

(** X5.  The bounds that [build_tree] stores are the bounding box of the
    grid: every longitude and latitude of the dataset lies between them,
    and each of the four bounds is the value of some grid point. *)
Theorem build_tree_bounding_box (ds : Dataset) (info : LookupInfo) :
  build_tree_body ds = Ret info ->
  (forall v, In v (ds_lon ds) ->
     fst (bounds_lon info) <= v /\ v <= snd (bounds_lon info)) /\
  (forall v, In v (ds_lat ds) ->
     fst (bounds_lat info) <= v /\ v <= snd (bounds_lat info)) /\
  (exists v, In v (ds_lon ds) /\ v == fst (bounds_lon info)) /\
  (exists v, In v (ds_lon ds) /\ v == snd (bounds_lon info)) /\
  (exists v, In v (ds_lat ds) /\ v == fst (bounds_lat info)) /\
  (exists v, In v (ds_lat ds) /\ v == snd (bounds_lat info)).
Proof.
  intros Hbuild.
  destruct (build_tree_body_box ds info Hbuild) as (_ & Hlon & Hlat).
  split; [exact Hlon|]. split; [exact Hlat|].
  unfold build_tree_body in Hbuild.
  destruct (ds_lon ds) as [|x xs]; [discriminate|].
  destruct (ds_lat ds) as [|y ys]; [discriminate|].
  injection Hbuild as <-. simpl.
  split; [apply fold_min_attained|]. split; [apply fold_max_attained|].
  split; [apply fold_min_attained | apply fold_max_attained].
Qed.

Lemma build_tree_bounding_box_witness :
  exists info,
    build_tree_body grid_yx = Ret info /\
    bounds_lon info = (0, 12) /\ bounds_lat info = (50, 62) /\
    (forall v, In v (ds_lon grid_yx) ->
       fst (bounds_lon info) <= v /\ v <= snd (bounds_lon info)).
Proof.
  eexists. split; [reflexivity|]. split; [reflexivity|].
  split; [reflexivity|].
  apply (build_tree_bounding_box grid_yx). reflexivity.
Defined.

Lemma isel_flat_yx ds nx ny k :
  ds_dims ds = DimsYX -> ds_shape ds = (nx, ny) -> wf_dataset ds ->
  (k < nx * ny)%nat ->
  exists cell, isel ds (k mod ny) (k / ny) = Ret cell /\
    ds_lon ds !! k = Some (pt_lon cell) /\
    ds_lat ds !! k = Some (pt_lat cell).
Proof.
  intros Hdims Hshape (Hlon & Hlat & Hvars) Hk. rewrite Hshape in *.
  simpl in Hlon, Hlat, Hvars. unfold isel. rewrite Hdims, Hshape.
  rewrite (flat_position_yx nx ny k Hk).
  destruct (lookup_lt_is_Some_2 (ds_lon ds) k) as [lo Hlo]; [lia|].
  destruct (lookup_lt_is_Some_2 (ds_lat ds) k) as [la Hla]; [lia|].
  destruct (isel_vars_total _ k _ Hvars Hk) as [vs Hvs].
  rewrite Hlo, Hla, Hvs. eexists. split; [reflexivity|].
  split; reflexivity.
Qed.

(** On a well-formed (y, x) dataset and its own index the slice is the
    nearest grid point. *)
Lemma resolve_wrap_yx fuel ds nx ny info lon lat lon_wrapped offset :
  ds_dims ds = DimsYX -> ds_shape ds = (nx, ny) -> wf_dataset ds ->
  build_tree_body ds = Ret info ->
  _wrap_lon fuel lon (bounds_lon info) = Ret (lon_wrapped, offset) ->
  outside lat (bounds_lat info) = false ->
  exists k lo la r,
    resolve fuel ds lon lat true info = Ret r /\
    zip (ds_lon ds) (ds_lat ds) !! k = Some (lo, la) /\
    pt_lon r = lo - offset /\ pt_lat r = la /\
    forall j p, zip (ds_lon ds) (ds_lat ds) !! j = Some p ->
      dist2 (lo, la) (lon_wrapped, lat) <= dist2 p (lon_wrapped, lat).
Proof.
  intros Hdims Hshape Hwf Hbuild Hwrap Hlat.
  destruct (build_tree_body_box ds info Hbuild) as (Htree & _ & _).
  assert (zip (ds_lon ds) (ds_lat ds) <> []) as Hne.
  { unfold build_tree_body in Hbuild.
    destruct (ds_lon ds) as [|x xs]; [discriminate|].
    destruct (ds_lat ds) as [|y ys]; [discriminate|]. discriminate. }
  destruct (kd_query_nearest _ (lon_wrapped, lat) Hne) as ([lo la] & Hk & Hmin).
  pose proof (lookup_lt_Some _ _ _ Hk) as Hlt.
  rewrite length_zip_with in Hlt.
  assert (kd_query (zip (ds_lon ds) (ds_lat ds)) (lon_wrapped, lat) < nx * ny)%nat
    as Hrange.
  { destruct Hwf as (Hl1 & Hl2 & _). rewrite Hshape in Hl1, Hl2.
    simpl in Hl1, Hl2. rewrite Hl1, Hl2, Nat.min_id in Hlt. exact Hlt. }
  destruct (isel_flat_yx ds nx ny _ Hdims Hshape Hwf Hrange)
    as (cell & Hsel & Hclo & Hcla).
  apply lookup_zip_with_Some in Hk.
  destruct Hk as (lo' & la' & Heq & Hlo & Hla). injection Heq as -> ->.
  exists (kd_query (zip (ds_lon ds) (ds_lat ds)) (lon_wrapped, lat)), lo', la'.
  eexists. unfold resolve. rewrite Hwrap, Hlat, Hshape, Htree, Hsel.
  split; [reflexivity|]. simpl.
  split; [rewrite lookup_zip_with, Hlo, Hla; reflexivity|].
  split; [congruence|]. split; [congruence | exact Hmin].
Qed.

Lemma pt_lon_lat_pt_of lon lat : pt_lon_lat (pt_of lon lat) = Ret (lon, lat).
Proof.
  unfold pt_of, pt_lon_lat. rewrite lookup_insert_eq.
  rewrite lookup_insert_ne by discriminate.
  rewrite lookup_singleton_eq. reflexivity.
Qed.

Lemma dist2_zero_same (p q : Q * Q) :
  dist2 p q <= 0 -> fst p == fst q /\ snd p == snd q.
Proof.
  destruct p as [a b], q as [c d]. unfold dist2. simpl. intros H.
  assert (forall x y : Q, x * x + y * y <= 0 -> x == 0 /\ y == 0) as Hsq.
  { intros x y Hxy. split; nra. }
  destruct (Hsq _ _ H) as [Hx Hy]. split; lra.
Qed.



(** X7.  Every grid point is found by its own coordinates: on a
    well-formed (y, x) dataset with neither cache holding its identifier,
    the query at the longitude and latitude of a grid point returns a cell
    with that longitude and latitude. *)
Theorem grid_point_found (fuel : nat) (ds : Dataset) (w : world)
    (identifier : string) (nx ny k : nat) (lo la : Q) :
  ds_attrs ds !! "suite_name"%string = Some identifier ->
  ds_dims ds = DimsYX -> ds_shape ds = (nx, ny) -> wf_dataset ds ->
  LOOKUP_INFO w !! identifier = None -> pickles w !! identifier = None ->
  zip (ds_lon ds) (ds_lat ds) !! k = Some (lo, la) ->
  exists r w',
    sel_nearest_to_latlon_pt (S fuel) ds (pt_of lo la) true w = (Ret r, w') /\
    pt_lon r == lo /\ pt_lat r == la.
Proof.
  intros Hid Hdims Hshape Hwf Hmem Hpkl Hk.
  pose proof Hk as Hself.
  apply lookup_zip_with_Some in Hk.
  destruct Hk as (lo' & la' & Heq & Hlo & Hla). injection Heq as <- <-.
  assert (exists info, build_tree_body ds = Ret info) as [info Hbuild].
  { unfold build_tree_body.
    destruct (ds_lon ds) as [|x xs]; [discriminate|].
    destruct (ds_lat ds) as [|y ys]; [discriminate|]. eauto. }
  destruct (build_tree_body_box ds info Hbuild) as (_ & Hblon & Hblat).
  apply list_elem_of_lookup_2, list_elem_of_In in Hlo, Hla.
  destruct (Hblon lo Hlo) as [Hlo1 Hlo2].
  destruct (Hblat la Hla) as [Hla1 Hla2].
  assert (_wrap_lon (S fuel) lo (bounds_lon info) = Ret (lo, 0)) as Hwrap.
  { destruct (bounds_lon info) as [a b]. apply wrap_loop_inside; assumption. }
  assert (outside la (bounds_lat info) = false) as Hout.
  { unfold outside. apply orb_false_intro; apply Qltb_false; assumption. }
  destruct (resolve_wrap_yx (S fuel) ds nx ny info lo la lo 0
              Hdims Hshape Hwf Hbuild Hwrap Hout)
    as (k' & lo' & la' & r & Hres & Hk' & Hrlon & Hrla & Hmin).
  exists r. eexists.
  rewrite (sel_nearest_unfold _ _ _ _ _ _ _ _ Hid (pt_lon_lat_pt_of lo la)).
  rewrite (get_lookup_info_built _ _ _ _ Hmem Hpkl Hbuild). rewrite Hres.
  split; [reflexivity|].
  specialize (Hmin k (lo, la) Hself).
  assert (dist2 (lo, la) (lo, la) == 0) as Hzero by (unfold dist2; simpl; lra).
  rewrite Hzero in Hmin. apply dist2_zero_same in Hmin. simpl in Hmin.
  destruct Hmin as [H1 H2]. rewrite Hrlon, Hrla. split; lra.
Qed.

Lemma grid_point_found_witness :
  exists r w',
    sel_nearest_to_latlon_pt 1 grid_yx (pt_of 11 61) true empty_world
    = (Ret r, w') /\
    pt_lon r == 11 /\ pt_lat r == 61.
Proof.
  apply (grid_point_found 0 grid_yx empty_world "dini" 2 3 4 11 61);
    try reflexivity.
  exact wf_grid_yx.
Defined.

(** * Further properties of the caches *)

(** X8.  [cache_to_pickle] memoises on disk: when no pickle exists and the
    wrapped function returns a value, that value is returned and pickled,
    and the next call returns it from the pickle without running the
    function it is given. *)
Theorem cache_to_pickle_round_trip (identifier : string)
    (func func' : M LookupInfo) (w w2 : world) (v : LookupInfo) :
  pickles w !! identifier = None ->
  func {| LOOKUP_INFO := LOOKUP_INFO w; pickles := pickles w;
          trace := trace w ++ [EvPickleProbe identifier] |} = (Ret v, w2) ->
  exists w3,
    cache_to_pickle identifier func w = (Ret v, w3) /\
    pickles w3 !! identifier = Some v /\
    cache_to_pickle identifier func' w3
    = (Ret v,
       {| LOOKUP_INFO := LOOKUP_INFO w3; pickles := pickles w3;
          trace := trace w3 ++ [EvPickleProbe identifier;
                                EvPickleLoad identifier] |}).
Proof.
  intros Hpkl Hfunc.
  exists {| LOOKUP_INFO := LOOKUP_INFO w2;
            pickles := <[identifier := v]> (pickles w2);
            trace := trace w2 ++ [EvPickleDump identifier] |}.
  split; [|split].
  - unfold cache_to_pickle, pickle_get, pickle_dump, bind, log, ret. simpl.
    rewrite Hpkl. rewrite Hfunc. reflexivity.
  - simpl. apply lookup_insert_eq.
  - unfold cache_to_pickle, pickle_get, bind, log, ret. simpl.
    rewrite lookup_insert_eq. simpl. rewrite <- !app_assoc. reflexivity.
Qed.

Lemma cache_to_pickle_round_trip_witness :
  exists info w3,
    cache_to_pickle "dini"
      (log (EvBuild "dini") ;;; lift (build_tree_body grid_yx)) empty_world
    = (Ret info, w3) /\
    pickles w3 !! "dini"%string = Some info /\
    cache_to_pickle "dini"
      (log (EvBuild "dini") ;;; lift (build_tree_body grid_moved)) w3
    = (Ret info,
       {| LOOKUP_INFO := LOOKUP_INFO w3; pickles := pickles w3;
          trace := trace w3 ++ [EvPickleProbe "dini"; EvPickleLoad "dini"] |}).
Proof.
  eexists.
  eapply (cache_to_pickle_round_trip "dini"
           (log (EvBuild "dini") ;;; lift (build_tree_body grid_yx))
           (log (EvBuild "dini") ;;; lift (build_tree_body grid_moved))
           empty_world);
    reflexivity.
Defined.

(** X9.  [cache_to_pickle] does not cache a failure: when no pickle exists
    and the wrapped function raises, the exception is passed on with
    nothing dumped, and a later call runs the function it is given. *)
Theorem cache_to_pickle_failure_not_cached (identifier : string)
    (func func' : M LookupInfo) (w w2 w4 : world) (e : exn)
    (v : LookupInfo) :
  pickles w !! identifier = None ->
  func {| LOOKUP_INFO := LOOKUP_INFO w; pickles := pickles w;
          trace := trace w ++ [EvPickleProbe identifier] |} = (Raise e, w2) ->
  cache_to_pickle identifier func w = (Raise e, w2) /\
  (pickles w2 !! identifier = None ->
   func' {| LOOKUP_INFO := LOOKUP_INFO w2; pickles := pickles w2;
            trace := trace w2 ++ [EvPickleProbe identifier] |} = (Ret v, w4) ->
   cache_to_pickle identifier func' w2
   = (Ret v,
      {| LOOKUP_INFO := LOOKUP_INFO w4;
         pickles := <[identifier := v]> (pickles w4);
         trace := trace w4 ++ [EvPickleDump identifier] |})).
Proof.
  intros Hpkl Hfunc. split.
  - unfold cache_to_pickle, pickle_get, bind, log, ret. simpl.
    rewrite Hpkl. rewrite Hfunc. reflexivity.
  - intros Hpkl2 Hfunc'.
    unfold cache_to_pickle, pickle_get, pickle_dump, bind, log, ret. simpl.
    rewrite Hpkl2. rewrite Hfunc'. reflexivity.
Qed.

Lemma cache_to_pickle_failure_not_cached_witness :
  cache_to_pickle "dini" (raise IndexError) empty_world
  = (Raise IndexError,
     {| LOOKUP_INFO := ∅; pickles := ∅; trace := [EvPickleProbe "dini"] |}).
Proof.
  apply (cache_to_pickle_failure_not_cached "dini" (raise IndexError)
           (raise IndexError) empty_world _ empty_world IndexError
           {| tree := []; bounds_lat := (0, 0); bounds_lon := (0, 0) |});
    reflexivity.
Defined.

(** X10.  A pickle left under the identifier is used as it is: with no
    in-memory entry and a pickle present, the call builds nothing, loads the
    pickle, stores it in [LOOKUP_INFO], leaves the pickles alone and resolves
    the query against the pickled index and bounds, whatever the coordinates
    of the dataset. *)
Theorem pickled_index_loaded (fuel : nat) (ds : Dataset) (pt : pyobj)
    (wrap_lon : bool) (w : world) (identifier : string) (info : LookupInfo)
    (lon lat : Q) :
  ds_attrs ds !! "suite_name"%string = Some identifier ->
  pt_lon_lat pt = Ret (lon, lat) ->
  LOOKUP_INFO w !! identifier = None ->
  pickles w !! identifier = Some info ->
  sel_nearest_to_latlon_pt fuel ds pt wrap_lon w
  = (resolve fuel ds lon lat wrap_lon info,
     {| LOOKUP_INFO := <[identifier := info]> (LOOKUP_INFO w);
        pickles := pickles w;
        trace := trace w ++ [EvMemProbe identifier; EvPickleProbe identifier;
                             EvPickleLoad identifier; EvMemStore identifier] |}).
Proof.
  intros Hid Hpt Hmem Hpkl.
  rewrite (sel_nearest_unfold _ _ _ _ _ _ _ _ Hid Hpt).
  rewrite (get_lookup_info_pickled _ _ _ _ Hmem Hpkl). reflexivity.
Qed.

(** A new process that finds the pickle of [grid_yx] answers a query on
    [grid_moved] from the index of [grid_yx]. *)
Lemma pickled_index_loaded_witness :
  let info := {| tree := zip (ds_lon grid_yx) (ds_lat grid_yx);
                 bounds_lat := (50, 62); bounds_lon := (0, 12) |} in
  let w := {| LOOKUP_INFO := ∅; pickles := {[ "dini"%string := info ]};
              trace := [] |} in
  build_tree_body grid_yx = Ret info /\
  sel_nearest_to_latlon_pt 5 grid_moved (pt_of 1 51) true w
  = (resolve 5 grid_moved 1 51 true info,
     {| LOOKUP_INFO := <["dini"%string := info]> ∅;
        pickles := pickles w;
        trace := [EvMemProbe "dini"; EvPickleProbe "dini";
                  EvPickleLoad "dini"; EvMemStore "dini"] |}) /\
  resolve 5 grid_moved 1 51 true info
  = Ret {| pt_lon := 11 - 0; pt_lat := 61; pt_vars := [("t2m"%string, 5)] |}.
Proof.
  intros info w. split; [reflexivity|]. split; [|reflexivity].
  apply (pickled_index_loaded 5 grid_moved (pt_of 1 51) true w "dini" info);
    reflexivity.
Defined.

Lemma get_lookup_info_keeps_pickle ds id2 w identifier info :
  pickles w !! identifier = Some info ->
  pickles (snd (get_lookup_info ds id2 w)) !! identifier = Some info.
Proof.
  intros Hentry.
  destruct (LOOKUP_INFO w !! id2) as [info0|] eqn:Hmem.
  - rewrite (get_lookup_info_hit _ _ _ _ Hmem). exact Hentry.
  - destruct (pickles w !! id2) as [info1|] eqn:Hpkl.
    + rewrite (get_lookup_info_pickled _ _ _ _ Hmem Hpkl). exact Hentry.
    + assert (id2 <> identifier) as Hne by congruence.
      destruct (build_tree_body ds) as [info2|e2|] eqn:Hbuild.
      * rewrite (get_lookup_info_built _ _ _ _ Hmem Hpkl Hbuild). simpl.
        rewrite lookup_insert_ne by exact Hne. exact Hentry.
      * rewrite (get_lookup_info_build_fails _ _ _ _ Hmem Hpkl Hbuild).
        exact Hentry.
      * exfalso. exact (build_tree_body_fueled ds Hbuild).
Qed.

Lemma sel_nearest_keeps_pickle fuel ds pt wrap_lon w identifier info :
  pickles w !! identifier = Some info ->
  pickles (snd (sel_nearest_to_latlon_pt fuel ds pt wrap_lon w))
    !! identifier = Some info.
Proof.
  intros Hentry.
  destruct (ds_attrs ds !! "suite_name"%string) as [id2|] eqn:Hid.
  - destruct (pt_lon_lat pt) as [[lon lat]|e|] eqn:Hpt.
    + rewrite (sel_nearest_unfold _ _ _ _ _ _ _ _ Hid Hpt).
      pose proof (get_lookup_info_keeps_pickle ds id2 w _ _ Hentry) as Hkeep.
      destruct (get_lookup_info ds id2 w) as [[info'|e|] w']; exact Hkeep.
    + rewrite (sel_nearest_bad_pt _ _ _ _ _ _ _ Hid Hpt). exact Hentry.
    + exfalso. exact (pt_lon_lat_fueled pt Hpt).
  - unfold sel_nearest_to_latlon_pt. rewrite Hid. exact Hentry.
Qed.

(** X11.  Nothing is ever invalidated: over any sequence of calls, on any
    datasets and query points, an in-memory entry and a pickle each keep
    the content they had. *)
Theorem caches_never_invalidated (w w' : world) :
  calls w w' ->
  (forall identifier info,
     LOOKUP_INFO w !! identifier = Some info ->
     LOOKUP_INFO w' !! identifier = Some info) /\
  (forall identifier info,
     pickles w !! identifier = Some info ->
     pickles w' !! identifier = Some info).
Proof.
  induction 1 as [w | w w' fuel ds pt wrap_lon _ [IHmem IHpkl]].
  - split; intros identifier info H; exact H.
  - split; intros identifier info H.
    + apply sel_nearest_keeps. apply IHmem. exact H.
    + apply sel_nearest_keeps_pickle. apply IHpkl. exact H.
Qed.

(** The pickle that a call on [grid_yx] writes is still there, with the
    index of [grid_yx], after a call on [grid_moved]. *)
Lemma caches_never_invalidated_witness :
  let info := {| tree := zip (ds_lon grid_yx) (ds_lat grid_yx);
                 bounds_lat := (50, 62); bounds_lon := (0, 12) |} in
  let w := snd (sel_nearest_to_latlon_pt 5 grid_yx (pt_of 1 51) true
                  empty_world) in
  let w' := snd (sel_nearest_to_latlon_pt 5 grid_moved (pt_of 400 0) true w) in
  pickles w !! "dini"%string = Some info /\
  pickles w' !! "dini"%string = Some info.
Proof.
  intros info w w'. split; [reflexivity|].
  apply (caches_never_invalidated w w');
    [apply calls_step; apply calls_refl | reflexivity].
Defined.

Lemma get_lookup_info_coherent ds identifier w :
  coherent w -> coherent (snd (get_lookup_info ds identifier w)).
Proof.
  intros Hco.
  destruct (LOOKUP_INFO w !! identifier) as [info0|] eqn:Hmem.
  - rewrite (get_lookup_info_hit _ _ _ _ Hmem). exact Hco.
  - destruct (pickles w !! identifier) as [info1|] eqn:Hpkl.
    + rewrite (get_lookup_info_pickled _ _ _ _ Hmem Hpkl).
      intros id' info'. simpl.
      destruct (decide (identifier = id')) as [<-|Hne].
      * rewrite lookup_insert_eq. congruence.
      * rewrite lookup_insert_ne by exact Hne. apply Hco.
    + destruct (build_tree_body ds) as [info2|e2|] eqn:Hbuild.
      * rewrite (get_lookup_info_built _ _ _ _ Hmem Hpkl Hbuild).
        intros id' info'. simpl.
        destruct (decide (identifier = id')) as [<-|Hne].
        -- rewrite !lookup_insert_eq. trivial.
        -- rewrite !lookup_insert_ne by exact Hne. apply Hco.
      * rewrite (get_lookup_info_build_fails _ _ _ _ Hmem Hpkl Hbuild).
        exact Hco.
      * exfalso. exact (build_tree_body_fueled ds Hbuild).
Qed.

Lemma sel_nearest_coherent fuel ds pt wrap_lon w :
  coherent w ->
  coherent (snd (sel_nearest_to_latlon_pt fuel ds pt wrap_lon w)).
Proof.
  intros Hco.
  destruct (ds_attrs ds !! "suite_name"%string) as [identifier|] eqn:Hid.
  - destruct (pt_lon_lat pt) as [[lon lat]|e|] eqn:Hpt.
    + rewrite (sel_nearest_unfold _ _ _ _ _ _ _ _ Hid Hpt).
      pose proof (get_lookup_info_coherent ds identifier w Hco) as Hco'.
      destruct (get_lookup_info ds identifier w) as [[info|e|] w']; exact Hco'.
    + rewrite (sel_nearest_bad_pt _ _ _ _ _ _ _ Hid Hpt). exact Hco.
    + exfalso. exact (pt_lon_lat_fueled pt Hpt).
  - unfold sel_nearest_to_latlon_pt. rewrite Hid. exact Hco.
Qed.

(** X12.  The two tiers agree: in a process that started with an empty
    [LOOKUP_INFO], after any sequence of calls every in-memory entry is the
    content of the pickle of its identifier. *)
Theorem memory_agrees_with_pickles (w w' : world) :
  LOOKUP_INFO w = ∅ -> calls w w' -> coherent w'.
Proof.
  intros Hempty Hcalls.
  induction Hcalls as [w | w w' fuel ds pt wrap_lon _ IH].
  - intros identifier info. rewrite Hempty, lookup_empty. discriminate.
  - apply sel_nearest_coherent. apply IH. exact Hempty.
Qed.

Lemma memory_agrees_with_pickles_witness :
  coherent (snd (sel_nearest_to_latlon_pt 5 grid_yx (pt_of 1 51) true
                   empty_world)).
Proof.
  apply (memory_agrees_with_pickles empty_world); [reflexivity|].
  apply calls_step. apply calls_refl.
Defined.

(** * Further properties of [sel_nearest_to_latlon_pt] *)

(** X13.  A latitude outside the latitude bounds of the index is refused
    in both modes: when the longitude is inside the longitude bounds, the
    call raises the [ValueError] of utils.py:128-130 with the latitude and
    the bounds, after the index has been fetched or built. *)
Theorem latitude_outside_raises (fuel : nat) (ds : Dataset) (pt : pyobj)
    (wrap_lon : bool) (w w1 : world) (identifier : string)
    (info : LookupInfo) (lon lat : Q) :
  ds_attrs ds !! "suite_name"%string = Some identifier ->
  pt_lon_lat pt = Ret (lon, lat) ->
  get_lookup_info ds identifier w = (Ret info, w1) ->
  outside lon (bounds_lon info) = false ->
  outside lat (bounds_lat info) = true ->
  sel_nearest_to_latlon_pt (S fuel) ds pt wrap_lon w
  = (Raise (ValueError (MsgLatOutside lat (bounds_lat info))), w1).
Proof.
  intros Hid Hpt Hget Hlon Hlat.
  rewrite (sel_nearest_unfold _ _ _ _ _ _ _ _ Hid Hpt), Hget. f_equal.
  destruct wrap_lon.
  - assert (_wrap_lon (S fuel) lon (bounds_lon info) = Ret (lon, 0)) as Hwrap.
    { unfold outside in Hlon. apply orb_false_elim in Hlon.
      destruct Hlon as [H1 H2]. apply Qltb_false in H1, H2.
      destruct (bounds_lon info) as [a b]. apply wrap_loop_inside; assumption. }
    unfold resolve. rewrite Hwrap, Hlat. reflexivity.
  - rewrite resolve_no_wrap, Hlon, Hlat. reflexivity.
Qed.

Lemma latitude_outside_raises_witness :
  exists w1,
    sel_nearest_to_latlon_pt 1 grid_strip (pt_of 0 95) false empty_world
    = (Raise (ValueError (MsgLatOutside 95 (0, 0))), w1).
Proof.
  eexists.
  eapply (latitude_outside_raises 0 grid_strip (pt_of 0 95) false empty_world
            _ "dini"
            {| tree := zip (ds_lon grid_strip) (ds_lat grid_strip);
               bounds_lat := (0, 0); bounds_lon := (-10, 10) |} 0 95);
    reflexivity.
Defined.

(** X14.  The answer to a query is stable over the life of the process:
    unless the first call failed while building the index, the same call
    made again after any number of other calls has the same outcome. *)
Theorem repeated_query_same_outcome (fuel : nat) (ds : Dataset) (pt : pyobj)
    (wrap_lon : bool) (w w2 : world) :
  fst (sel_nearest_to_latlon_pt fuel ds pt wrap_lon w)
    <> Raise (ValueError MsgEmptyData) ->
  calls (snd (sel_nearest_to_latlon_pt fuel ds pt wrap_lon w)) w2 ->
  fst (sel_nearest_to_latlon_pt fuel ds pt wrap_lon w2)
  = fst (sel_nearest_to_latlon_pt fuel ds pt wrap_lon w).
Proof.
  intros Hbuilt Hcalls.
  destruct (ds_attrs ds !! "suite_name"%string) as [identifier|] eqn:Hid.
  - destruct (pt_lon_lat pt) as [[lon lat]|e|] eqn:Hpt.
    + rewrite (sel_nearest_unfold fuel ds pt wrap_lon w _ _ _ Hid Hpt)
        in Hbuilt, Hcalls |- *.
      rewrite (sel_nearest_unfold fuel ds pt wrap_lon w2 _ _ _ Hid Hpt).
      destruct (get_lookup_info ds identifier w) as [[info|e|] w1] eqn:Hget;
        simpl in Hbuilt, Hcalls |- *.
      * apply get_lookup_info_ret in Hget. destruct Hget as [Hmem _].
        pose proof (calls_keep _ _ _ _ Hcalls Hmem) as Hmem2.
        rewrite (get_lookup_info_hit _ _ _ _ Hmem2). reflexivity.
      * apply get_lookup_info_raises in Hget. subst e. contradiction.
      * exfalso. exact (get_lookup_info_fueled _ _ _ _ Hget).
    + rewrite !(sel_nearest_bad_pt _ _ _ _ _ _ _ Hid Hpt). reflexivity.
    + exfalso. exact (pt_lon_lat_fueled pt Hpt).
  - unfold sel_nearest_to_latlon_pt. rewrite Hid. reflexivity.
Qed.

(** The query on [grid_yx] is answered alike before and after a call on
    [grid_moved]. *)
Lemma repeated_query_same_outcome_witness :
  let w1 := snd (sel_nearest_to_latlon_pt 5 grid_yx (pt_of 1 51) true
                   empty_world) in
  let w2 := snd (sel_nearest_to_latlon_pt 5 grid_moved (pt_of 2 60) true w1) in
  fst (sel_nearest_to_latlon_pt 5 grid_yx (pt_of 1 51) true w2)
  = Ret {| pt_lon := 1 - 0; pt_lat := 51; pt_vars := [("t2m"%string, 2)] |}.
Proof.
  intros w1 w2.
  rewrite (repeated_query_same_outcome 5 grid_yx (pt_of 1 51) true
             empty_world w2).
  - reflexivity.
  - discriminate.
  - apply calls_step. apply calls_refl.
Defined.

(** * [_wrap_lon] on binary64 *)

Lemma Qltb_proper p q p' q' : p == p' -> q == q' -> Qltb p q = Qltb p' q'.
Proof.
  intros Hp Hq. unfold Qltb. f_equal. rewrite Hp, Hq. reflexivity.
Qed.

Lemma represents_0 : represents 0%float 0.
Proof. exists 0. split; reflexivity. Qed.

Lemma exact_value_represents x p : exact_value x = Some p -> represents x p.
Proof. intros H. exists p. split; [exact H | reflexivity]. Qed.

Lemma same_order_values x y :
  same_order x y = true ->
  exists p q, exact_value x = Some p /\ exact_value y = Some q.
Proof.
  unfold same_order.
  destruct (exact_value x) as [p|]; [|discriminate].
  destruct (exact_value y) as [q|]; [|discriminate]. eauto.
Qed.

Lemma same_order_true x y qx qy :
  same_order x y = true -> represents x qx -> represents y qy ->
  PrimFloat.ltb x y = Qltb qx qy.
Proof.
  unfold same_order. intros H (p & Hp & Epx) (q & Hq & Eqy).
  rewrite Hp, Hq in H. apply Bool.eqb_prop in H. rewrite H.
  apply Qltb_proper; assumption.
Qed.

Lemma exact_plus_360_true x qx :
  exact_plus_360 x = true -> represents x qx ->
  represents (PrimFloat.add x 360%float) (qx + 360).
Proof.
  unfold exact_plus_360. intros H (p & Hp & Epx). rewrite Hp in H.
  destruct (exact_value (PrimFloat.add x 360%float)) as [r|] eqn:Er;
    [|discriminate].
  apply Qeq_bool_iff in H. exists r. split; [exact Er|].
  rewrite H, Epx. reflexivity.
Qed.

Lemma exact_minus_360_true x qx :
  exact_minus_360 x = true -> represents x qx ->
  represents (PrimFloat.sub x 360%float) (qx - 360).
Proof.
  unfold exact_minus_360. intros H (p & Hp & Epx). rewrite Hp in H.
  destruct (exact_value (PrimFloat.sub x 360%float)) as [r|] eqn:Er;
    [|discriminate].
  apply Qeq_bool_iff in H. exists r. split; [exact Er|].
  rewrite H, Epx. reflexivity.
Qed.

(** On a run without rounding the binary64 loop and the exact loop take
    the same branches and end alike. *)
Lemma wrap_loop_b64_exact fuel :
  forall a b lon rot lon0 qa qb ql qr,
    represents a qa -> represents b qb ->
    represents lon ql -> represents rot qr ->
    exact_run fuel (a, b) lon rot = true ->
    agrees (wrap_loop_b64 fuel (a, b) lon rot)
           (wrap_loop fuel lon0 (qa, qb) ql qr).
Proof.
  induction fuel as [|fuel IH];
    intros a b lon rot lon0 qa qb ql qr Ha Hb Hl Hr Hrun.
  - exact I.
  - cbn [exact_run wrap_loop_b64 wrap_loop fst snd] in Hrun |- *.
    apply andb_prop in Hrun. destruct Hrun as [Hcmp Hrun].
    apply andb_prop in Hcmp. destruct Hcmp as [Hca Hcb].
    rewrite (same_order_true _ _ _ _ Hca Hl Ha) in Hrun |- *.
    rewrite (same_order_true _ _ _ _ Hcb Hb Hl) in Hrun |- *.
    destruct (Qltb ql qa); cbn [orb] in Hrun |- *.
    + apply andb_prop in Hrun. destruct Hrun as [Hcr Hrun].
      rewrite (same_order_true _ _ _ _ Hcr Hr represents_0) in Hrun |- *.
      destruct (Qltb qr 0); [exact I|].
      apply andb_prop in Hrun. destruct Hrun as [Hex Hrun].
      apply andb_prop in Hex. destruct Hex as [Hel Her].
      apply IH; try assumption.
      * apply exact_plus_360_true; assumption.
      * apply exact_plus_360_true; assumption.
    + destruct (Qltb qb ql).
      * apply andb_prop in Hrun. destruct Hrun as [Hcr Hrun].
        rewrite (same_order_true _ _ _ _ Hcr represents_0 Hr) in Hrun |- *.
        destruct (Qltb 0 qr); [exact I|].
        apply andb_prop in Hrun. destruct Hrun as [Hex Hrun].
        apply andb_prop in Hex. destruct Hex as [Hel Her].
        apply IH; try assumption.
        -- apply exact_minus_360_true; assumption.
        -- apply exact_minus_360_true; assumption.
      * split; assumption.
Qed.

(** The values a run starts from, read off its first test. *)
Lemma exact_run_values fuel a b lon rot :
  exact_run (S fuel) (a, b) lon rot = true ->
  exists qa qb ql,
    exact_value a = Some qa /\ exact_value b = Some qb /\
    exact_value lon = Some ql.
Proof.
  cbn [exact_run fst snd]. intros Hrun.
  apply andb_prop in Hrun. destruct Hrun as [Hcmp _].
  apply andb_prop in Hcmp. destruct Hcmp as [Hca Hcb].
  apply same_order_values in Hca, Hcb.
  destruct Hca as (ql & qa & Hl & Ha). destruct Hcb as (qb & _ & Hb & _).
  eauto 10.
Qed.




(** C3, as the code has it.  On a run of the binary64 loop that stays on
    finite values and in which no addition or subtraction of 360 rounds,
    the value that [_wrap_lon] returns minus the returned offset is the
    longitude that was passed, the offset is a whole multiple of 360, and
    the returned value is congruent to the input modulo 360 (all as the
    numbers the binary64 values stand for). *)
Theorem wrap_lon_b64_congruence (fuel : nat) (lon a b wrapped offset : float) :
  exact_run fuel (a, b) lon 0%float = true ->
  _wrap_lon_b64 fuel lon (a, b) = Wrapped wrapped offset ->
  exists ql qw qoff,
    exact_value lon = Some ql /\ exact_value wrapped = Some qw /\
    exact_value offset = Some qoff /\
    qw - qoff == ql /\
    exists k : Z, qoff == 360 * inject_Z k /\ qw == ql + 360 * inject_Z k.
Proof.
  intros Hrun Hret. destruct fuel as [|fuel]; [discriminate|].
  destruct (exact_run_values _ _ _ _ _ Hrun) as (qa & qb & ql & Ha & Hb & Hl).
  pose proof (wrap_loop_b64_exact (S fuel) a b lon 0%float ql qa qb ql 0
                (exact_value_represents _ _ Ha)
                (exact_value_represents _ _ Hb)
                (exact_value_represents _ _ Hl) represents_0 Hrun) as Hsim.
  unfold _wrap_lon_b64 in Hret. rewrite Hret in Hsim.
  destruct (wrap_loop (S fuel) ql (qa, qb) ql 0) as [[qw qoff]|e|] eqn:Hq;
    try contradiction.
  destruct Hsim as [(pw & Hpw & Ew) (poff & Hpoff & Eoff)].
  destruct (wrap_lon_offset (S fuel) ql (qa, qb) qw qoff Hq) as [Hinv [k Hk]].
  exists ql, pw, poff. repeat (split; [assumption|]).
  split; [lra|]. exists k. split; lra.
Qed.

Lemma wrap_lon_b64_congruence_witness :
  exact_run 5 (-10, 10)%float 355%float 0%float = true /\
  _wrap_lon_b64 5 355%float (-10, 10)%float = Wrapped (-5)%float (-360)%float /\
  exists ql qw qoff,
    exact_value 355%float = Some ql /\ exact_value (-5)%float = Some qw /\
    exact_value (-360)%float = Some qoff /\
    qw - qoff == ql /\
    exists k : Z, qoff == 360 * inject_Z k /\ qw == ql + 360 * inject_Z k.
Proof.
  split; [reflexivity|]. split; [reflexivity|].
  apply (wrap_lon_b64_congruence 5 355%float (-10)%float 10%float);
    reflexivity.
Defined.

(** C3 as written fails on binary64: the double nearest to -0.1 wrapped to
    (0, 360) becomes 359.9 (the sum rounds) with offset 360, and 359.9 - 360
    is not the longitude that was passed, neither for the numbers the values
    stand for nor as a binary64 difference.  A NaN is returned as it is,
    and is not equal to itself. *)
Lemma wrap_lon_b64_rounds :
  (exists w off ql qw qoff,
     _wrap_lon_b64 5 (-0x1.999999999999ap-4)%float (0, 360)%float
     = Wrapped w off /\
     exact_value (-0x1.999999999999ap-4)%float = Some ql /\
     exact_value w = Some qw /\ exact_value off = Some qoff /\
     ~ qw - qoff == ql /\
     PrimFloat.eqb (PrimFloat.sub w off) (-0x1.999999999999ap-4)%float
     = false) /\
  _wrap_lon_b64 1 nan (0, 360)%float = Wrapped nan 0%float /\
  PrimFloat.eqb (PrimFloat.sub nan 0%float) nan = false.
Proof.
  split; [|split; reflexivity].
  do 5 eexists. split; [vm_compute; reflexivity|].
  split; [vm_compute; reflexivity|]. split; [vm_compute; reflexivity|].
  split; [vm_compute; reflexivity|]. split; [|reflexivity].
  intros H. vm_compute in H. discriminate H.
Qed.








